(** * Verification of [ios/fix_project.py]

    The script patches an Xcode project file held in memory as one Python
    [str]: three [re.sub] removals per stale file name, then slice insertions
    of new build-file entries before an anchor found with [str.find], then a
    [print] and a write back to the same path.

    Embedding.  A document is a [list ascii]: a sequence of code points in
    the range 0..255, on which [\s] and [\w] are classified as CPython
    classifies them for [str] patterns.  Python integers ([str.find]'s result,
    slice bounds) are [Z].  The regular expressions of the script use only
    concatenation, literals and greedy [*] / [+] over a character class; they
    are embedded as lists of such items and run by a backtracking matcher that
    tries the longest repetition first, as [re] does.  File access and
    [print] are embedded in a small state-and-exception monad over a [world]
    that records the file system, the standard output and the order of
    effects. *)

From Stdlib Require Import String Ascii List ZArith Bool Lia Arith.
Import ListNotations.

Local Open Scope list_scope.

(** ** Text *)

Definition text := list ascii.

(** [T "..."] is the text of a string literal. *)
Definition T (s : string) : text := list_ascii_of_string s.

Definition TAB : ascii := ascii_of_nat 9.
Definition NL : ascii := ascii_of_nat 10.


(** [s.startswith(p)], returning what follows [p]. *)
Fixpoint strip_prefix (p s : text) : option text :=
  match p with
  | [] => Some s
  | a :: p' =>
      match s with
      | [] => None
      | b :: s' => if Ascii.eqb a b then strip_prefix p' s' else None
      end
  end.

Definition starts_with (p s : text) : bool :=
  match strip_prefix p s with Some _ => true | None => false end.

(** [content.find(needle)]: the lowest index at which [needle] starts, or
    [-1]. [find_from] carries the index of the head of [s]. *)
Fixpoint find_from (needle s : text) (i : Z) : Z :=
  if starts_with needle s then i
  else match s with
       | [] => (-1)%Z
       | _ :: s' => find_from needle s' (i + 1)%Z
       end.

Definition find (needle s : text) : Z := find_from needle s 0%Z.

(** [needle in content] *)
Definition str_in (needle s : text) : bool := negb (find needle s =? -1)%Z.

(** Python slice bounds: a negative bound counts from the end, and every
    bound is clamped to [0, len]. *)
Definition slice_index (i : Z) (len : nat) : nat :=
  if (i <? 0)%Z then Z.to_nat (Z.max 0 (i + Z.of_nat len))
  else Z.to_nat (Z.min i (Z.of_nat len)).

(** [s[:i]] and [s[i:]] *)
Definition slice_to (i : Z) (s : text) : text :=
  firstn (slice_index i (length s)) s.
Definition slice_from (i : Z) (s : text) : text :=
  skipn (slice_index i (length s)) s.

(** Number of (possibly overlapping) occurrences of [needle] in [s]. *)
Fixpoint occurrences (needle s : text) : nat :=
  (if starts_with needle s then 1 else 0) +
  match s with
  | [] => 0
  | _ :: s' => occurrences needle s'
  end.



(** ** Regular expressions of the script *)

Module Re.

(** The character classes the patterns use. *)
Inductive cls := Space | Word | NotBrace.

Definition in_range (lo hi : nat) (c : ascii) : bool :=
  let n := nat_of_ascii c in (lo <=? n) && (n <=? hi).

(** [\s] on a [str] pattern: the characters for which [str.isspace()] holds.
    Below 256 these are TAB..CR, FS..US, space, NEL and NBSP. *)
Definition is_space (c : ascii) : bool :=
  in_range 9 13 c || in_range 28 32 c
  || Nat.eqb (nat_of_ascii c) 133 || Nat.eqb (nat_of_ascii c) 160.

(** [\w] on a [str] pattern: [str.isalnum()] or the underscore. Below 256:
    the ASCII letters and digits, and the Latin-1 letters, superscript digits
    and vulgar fractions. *)
Definition is_word (c : ascii) : bool :=
  in_range 48 57 c || in_range 65 90 c || in_range 97 122 c
  || Nat.eqb (nat_of_ascii c) 95
  || Nat.eqb (nat_of_ascii c) 170 || in_range 178 179 c
  || Nat.eqb (nat_of_ascii c) 181 || in_range 185 186 c
  || in_range 188 190 c || in_range 192 214 c || in_range 216 246 c
  || in_range 248 255 c.

Definition mem (k : cls) (c : ascii) : bool :=
  match k with
  | Space => is_space c
  | Word => is_word c
  | NotBrace => negb (Ascii.eqb c "}"%char)
  end.

(** One item of a pattern: [k*], [k+] or a literal. *)
Inductive item :=
| Many0 (k : cls)
| Many1 (k : cls)
| Lit (l : text).

Definition pattern := list item.

(** Greedy repetition of class [k], then the continuation [rest]: take one
    more character when possible, and fall back to fewer when what follows
    fails. The result is the number of characters consumed. *)
Fixpoint greedy (k : cls) (rest : text -> option nat) (s : text) : option nat :=
  match s with
  | c :: s' =>
      if mem k c then
        match greedy k rest s' with
        | Some n => Some (S n)
        | None => rest s
        end
      else rest s
  | [] => rest s
  end.

(** [pattern.match(s)]: the length of the match of [p] at the start of [s]. *)
Fixpoint match_here (p : pattern) (s : text) {struct p} : option nat :=
  match p with
  | [] => Some 0
  | i :: q =>
      match i with
      | Lit l =>
          match strip_prefix l s with
          | Some r => option_map (Nat.add (length l)) (match_here q r)
          | None => None
          end
      | Many0 k => greedy k (match_here q) s
      | Many1 k =>
          match s with
          | c :: s' =>
              if mem k c then option_map S (greedy k (match_here q) s')
              else None
          | [] => None
          end
      end
  end.

(** [re.sub(p, '', s)]: scan from the left; where a match starts, drop it and
    resume after it; elsewhere keep the character and move on by one.
    [skip] counts the characters of the current match still to be dropped. *)
Fixpoint sub_from (p : pattern) (skip : nat) (s : text) : text :=
  match s with
  | [] => []
  | c :: s' =>
      match skip with
      | S k => sub_from p k s'
      | O =>
          match match_here p s with
          | Some (S n) => sub_from p n s'
          | _ => c :: sub_from p O s'
          end
      end
  end.

Definition sub (p : pattern) (s : text) : text := sub_from p 0 s.

(** The stretches of text that [re.sub(p, '', s)] keeps, in order: the text
    before the first deleted match, between two deleted matches, and after
    the last one. The head of the result is the stretch that starts where the
    scan stands. *)
Fixpoint kept_from (p : pattern) (skip : nat) (s : text) : list text :=
  match s with
  | [] => [[]]
  | c :: s' =>
      match skip with
      | S k => kept_from p k s'
      | O =>
          match match_here p s with
          | Some (S n) => [] :: kept_from p n s'
          | _ =>
              match kept_from p O s' with
              | g :: gs => (c :: g) :: gs
              | [] => [[c]]
              end
          end
      end
  end.

Definition kept (p : pattern) (s : text) : list text := kept_from p 0 s.

(** The matches that [re.sub(p, '', s)] deletes, in order. *)
Fixpoint dropped_from (p : pattern) (skip : nat) (s : text) : list text :=
  match s with
  | [] => []
  | c :: s' =>
      match skip with
      | S k => dropped_from p k s'
      | O =>
          match match_here p s with
          | Some (S n) => firstn (S n) s :: dropped_from p n s'
          | _ => dropped_from p O s'
          end
      end
  end.

Definition dropped (p : pattern) (s : text) : list text :=
  dropped_from p 0 s.


(** [re.search(p, s) is not None] *)
Fixpoint search (p : pattern) (s : text) : bool :=
  match match_here p s with
  | Some _ => true
  | None =>
      match s with
      | [] => false
      | _ :: s' => search p s'
      end
  end.

(** [Matches p m]: the text [m] is an occurrence of [p], read off the
    pattern: a run of the class for [k*], a non-empty run for [k+], the
    literal itself. *)
Inductive Matches : pattern -> text -> Prop :=
| MatchesEnd : Matches [] []
| MatchesMany0 k q w m :
    forallb (mem k) w = true -> Matches q m -> Matches (Many0 k :: q) (w ++ m)
| MatchesMany1 k q w m :
    w <> [] -> forallb (mem k) w = true -> Matches q m ->
    Matches (Many1 k :: q) (w ++ m)
| MatchesLit l q m :
    Matches q m -> Matches (Lit l :: q) (l ++ m).

(** [stops k x]: a run of class [k] cannot go on into [x]. *)
Definition stops (k : cls) (x : text) : Prop :=
  match x with
  | [] => True
  | c :: _ => mem k c = false
  end.

(** At most one occurrence of [q] starts at a given place of a text. *)
Definition unique (q : pattern) : Prop :=
  forall m1 r1 m2 r2,
    Matches q m1 -> Matches q m2 -> m1 ++ r1 = m2 ++ r2 -> m1 = m2.

(** Every match of [p] is non-empty. *)
Definition positive (p : pattern) : Prop :=
  forall s n, match_here p s = Some n -> 0 < n.

End Re.

(** ** The removal step *)

(** [rf'\s*\w+\s*/\* {re.escape(old_file)} in Sources \*/ = \{{[^}}]+\}};'] *)
Definition build_file_pattern (old_file : text) : Re.pattern :=
  [Re.Many0 Re.Space; Re.Many1 Re.Word; Re.Many0 Re.Space;
   Re.Lit (T "/* " ++ old_file ++ T " in Sources */ = {");
   Re.Many1 Re.NotBrace; Re.Lit (T "};")].

(** [rf'\s*\w+\s*/\* {re.escape(old_file)} \*/ = \{{[^}}]+\}};'] *)
Definition file_ref_pattern (old_file : text) : Re.pattern :=
  [Re.Many0 Re.Space; Re.Many1 Re.Word; Re.Many0 Re.Space;
   Re.Lit (T "/* " ++ old_file ++ T " */ = {");
   Re.Many1 Re.NotBrace; Re.Lit (T "};")].

(** [rf'\s*\w+\s*/\* {re.escape(old_file)} in Sources \*/,'] *)
Definition build_phase_pattern (old_file : text) : Re.pattern :=
  [Re.Many0 Re.Space; Re.Many1 Re.Word; Re.Many0 Re.Space;
   Re.Lit (T "/* " ++ old_file ++ T " in Sources */,")].

Definition patterns_of (old_file : text) : list Re.pattern :=
  [build_file_pattern old_file; file_ref_pattern old_file;
   build_phase_pattern old_file].

(** The body of the loop over [old_files]. *)
Definition remove_file (content : text) (old_file : text) : text :=
  let content := Re.sub (build_file_pattern old_file) content in
  let content := Re.sub (file_ref_pattern old_file) content in
  let content := Re.sub (build_phase_pattern old_file) content in
  content.

(** [for old_file in old_files: ...] *)
Definition remove_stale (content : text) (old_files : list text) : text :=
  fold_left remove_file old_files content.

Definition old_files : list text :=
  [T "AppConfiguration.swift"; T "MainAppView.swift";
   T "AuthenticationManager.swift"; T "MessageBubbleView.swift";
   T "APIModels.swift"; T "APIService.swift"; T "DebugView.swift";
   T "SecurityManager.swift"].

(** ** The insertion step *)

Definition new_files : list (text * text) :=
  [(T "AuthManager.swift", T "E2DB26F22E53A25D00139AA3");
   (T "ChatView.swift", T "E2DB26F32E53A25D00139AA3");
   (T "ChatViewModel.swift", T "E2DB26F42E53A25D00139AA3")].

(** The literal searched for [insert_pos]. *)
Definition anchor_string : string :=
  "E2DB26FA2E53A25D00139AA3 /* AssistantAppApp.swift in Sources */ = {isa = PBXBuildFile; fileRef = E2DB26F02E53A25D00139AA3 /* AssistantAppApp.swift */; };".
Definition anchor : text := T anchor_string.

(** The f-string [build_entry]. *)
Definition build_entry (filename file_id : text) : text :=
  [TAB; TAB] ++ file_id ++ T "_BUILD /* " ++ filename
  ++ T " in Sources */ = {isa = PBXBuildFile; fileRef = " ++ file_id
  ++ T " /* " ++ filename ++ T " */; };" ++ [NL].

(** The body of the loop over [new_files]; [insert_pos] is computed once,
    before the loop. *)
Definition insert_entry (insert_pos : Z) (content : text)
    (entry : text * text) : text :=
  let '(filename, file_id) := entry in
  if negb (str_in filename content) then
    slice_to insert_pos content ++ build_entry filename file_id
      ++ slice_from insert_pos content
  else content.

Definition insert_new (content : text) (new_files : list (text * text)) : text :=
  let insert_pos := find anchor content in
  fold_left (insert_entry insert_pos) new_files content.

(** The transformation of the document between the read and the write. *)
Definition patch (old_files : list text) (new_files : list (text * text))
    (content : text) : text :=
  insert_new (remove_stale content old_files) new_files.

(** ** Files, standard output and the script *)

Inductive exn := FileNotFoundError | PermissionError.

(** A file: whether it may be opened for reading and for writing, and its
    content as text mode decodes it. *)
Record file := { readable : bool; writable : bool; data : text }.

(** What the process has done, oldest first. *)
Inductive event :=
| Read (path : string)
| Print (line : text)
| Write (path : string) (content : text).

Record world := {
  files : string -> option file;
  stdout : list text;
  trace : list event
}.

Definition log (e : event) (w : world) : world :=
  {| files := files w; stdout := stdout w; trace := trace w ++ [e] |}.

Inductive result (A : Type) :=
| Ok (a : A)
| Raise (e : exn).
Arguments Ok {A} a.
Arguments Raise {A} e.

Definition IO (A : Type) : Type := world -> result A * world.

Definition ret {A} (a : A) : IO A := fun w => (Ok a, w).

Definition bind {A B} (m : IO A) (k : A -> IO B) : IO B :=
  fun w =>
    match m w with
    | (Ok a, w') => k a w'
    | (Raise e, w') => (Raise e, w')
    end.

Notation "x <- m ;; k" := (bind m (fun x => k))
  (at level 61, m at next level, right associativity).
Notation "m ;; k" := (bind m (fun _ => k))
  (at level 61, right associativity).

(** [with open(path, 'r') as f: f.read()] *)
Definition read_file (path : string) : IO text :=
  fun w =>
    match files w path with
    | None => (Raise FileNotFoundError, w)
    | Some f =>
        if readable f then (Ok (data f), log (Read path) w)
        else (Raise PermissionError, w)
    end.

Definition set_file (path : string) (f : file) (fs : string -> option file)
    : string -> option file :=
  fun q => if String.eqb q path then Some f else fs q.

(** [with open(path, 'w') as f: f.write(content)] *)
Definition write_file (path : string) (content : text) : IO unit :=
  fun w =>
    match files w path with
    | Some f =>
        if writable f then
          (Ok tt,
           log (Write path content)
             {| files := set_file path
                  {| readable := readable f; writable := true;
                     data := content |} (files w);
                stdout := stdout w; trace := trace w |})
        else (Raise PermissionError, w)
    | None =>
        (Ok tt,
         log (Write path content)
           {| files := set_file path
                {| readable := true; writable := true; data := content |}
                (files w);
              stdout := stdout w; trace := trace w |})
    end.

(** [print(line)] *)
Definition print (line : text) : IO unit :=
  fun w =>
    (Ok tt,
     log (Print line)
       {| files := files w; stdout := stdout w ++ [line ++ [NL]];
          trace := trace w |}).

Definition project_path : string := "AssistantApp.xcodeproj/project.pbxproj".
Definition success_message : text := T "Fixed project file!".

(** The script, top to bottom. *)
Definition main : IO unit :=
  content <- read_file project_path ;;
  let content := remove_stale content old_files in
  let content := insert_new content new_files in
  print success_message ;;
  write_file project_path content.

(** ** Vocabulary of the properties *)

(** None of the three shapes of any name of [names] occurs in [content]. *)
Definition shape_free (content : text) (names : list text) : bool :=
  forallb
    (fun name => forallb (fun p => negb (Re.search p content)) (patterns_of name))
    names.

(** Some stretch of [s] is an occurrence of the pattern [p]. *)
Definition occurs (p : Re.pattern) (s : text) : Prop :=
  exists a m b, s = a ++ m ++ b /\ Re.Matches p m.

(** [re.sub(p, '', s)] is the concatenation of the stretches it keeps, and
    no such stretch contains an occurrence of [p]. *)
Definition deletes_what_it_meets (p : Re.pattern) (s : text) : Prop :=
  Re.sub p s = concat (Re.kept p s) /\
  Forall (fun g => ~ occurs p g) (Re.kept p s).

(** Inserting before the last character, which is what the slices at [-1]
    do. *)
Definition insert_before_last (content entry : text) : text :=
  firstn (length content - 1) content ++ entry
  ++ skipn (length content - 1) content.






(** A line of a project file: [indent] tabs, the text, a newline. *)
Definition line (indent : nat) (s : string) : text :=
  repeat TAB indent ++ T s ++ [NL].


Definition disk (path : string) (f : file) : string -> option file :=
  fun q => if String.eqb q path then Some f else None.

Definition boot (fs : string -> option file) : world :=
  {| files := fs; stdout := []; trace := [] |}.

(** The entries of a list whose names [content] does not mention. *)
Definition absent_from (content : text) (entries : list (text * text))
    : list (text * text) :=
  filter (fun e => negb (str_in (fst e) content)) entries.

(** No name of [entries] contains a tab or the letter E, the characters with
    which an inserted line and the anchor begin: no occurrence of such a name
    can span the point at which lines are inserted before the anchor. *)
Definition unsplittable (entries : list (text * text)) : bool :=
  forallb
    (fun e => negb (existsb (Ascii.eqb TAB) (fst e))
              && negb (existsb (Ascii.eqb "E"%char) (fst e)))
    entries.

(** [Subseq s t]: [s] is [t] with some characters left out, the others in
    their order. *)
Inductive Subseq : text -> text -> Prop :=
| SubseqNil : Subseq [] []
| SubseqKeep c s t : Subseq s t -> Subseq (c :: s) (c :: t)
| SubseqDrop c s t : Subseq s t -> Subseq s (c :: t).

(** The line inserted for an entry. *)
Definition entry_line (entry : text * text) : text :=
  build_entry (fst entry) (snd entry).

(** Every name of [entries] is absent from [content] and from the lines
    [earlier], and from the lines of the entries before it in the list. *)
Fixpoint fresh (content : text) (earlier : list text)
    (entries : list (text * text)) : bool :=
  match entries with
  | [] => true
  | e :: rest =>
      negb (str_in (fst e) content)
      && forallb (fun l => negb (str_in (fst e) l)) earlier
      && fresh content (entry_line e :: earlier) rest
  end.

(** No name of [entries] contains the character [c]. *)
Definition avoids (c : ascii) (entries : list (text * text)) : bool :=
  forallb (fun e => negb (existsb (Ascii.eqb c) (fst e))) entries.

(** The text has no closing brace. *)
Definition brace_free (t : text) : bool := forallb (Re.mem Re.NotBrace) t.

(** [weave gs ms]: the stretches [gs] with the stretches [ms] put between
    them, one after each but the last. *)
Fixpoint weave (gs ms : list text) : text :=
  match gs with
  | [] => []
  | g :: gs' =>
      g ++ match ms with
           | [] => concat gs'
           | m :: ms' => m ++ weave gs' ms'
           end
  end.

(** [re.sub(p, '', s)] takes [s] apart into the stretches it keeps and the
    matches it deletes between them, each of which is an occurrence of [p],
    and returns the stretches put together. *)
Definition deletes_only_occurrences (p : Re.pattern) (s : text) : Prop :=
  s = weave (Re.kept p s) (Re.dropped p s) /\
  length (Re.kept p s) = S (length (Re.dropped p s)) /\
  Forall (Re.Matches p) (Re.dropped p s) /\
  Re.sub p s = concat (Re.kept p s).

(** ** Sample inputs *)

Definition OldFile : text := T "OldFile.swift".
Definition NewFile : text := T "NewFile.swift".

(** A project file laid out as Xcode writes it: the anchor entry, and a
    build-file entry, a file-reference entry and a build-phase membership
    line for [OldFile.swift]. *)
Definition scenario_document : text :=
  concat [
    line 0 "// !$*UTF8*$!";
    line 0 "{";
    line 1 "objects = {";
    line 0 "";
    line 0 "/* Begin PBXBuildFile section */";
    line 2 anchor_string;
    line 2 "AA01 /* OldFile.swift in Sources */ = {isa = PBXBuildFile; fileRef = AA02 /* OldFile.swift */; };";
    line 0 "/* End PBXBuildFile section */";
    line 0 "";
    line 0 "/* Begin PBXFileReference section */";
    line 2 "AA02 /* OldFile.swift */ = {isa = PBXFileReference; lastKnownFileType = sourcecode.swift; path = OldFile.swift; sourceTree = SOURCE_ROOT; };";
    line 0 "/* End PBXFileReference section */";
    line 0 "";
    line 0 "/* Begin PBXSourcesBuildPhase section */";
    line 2 "AA03 /* Sources */ = {";
    line 3 "isa = PBXSourcesBuildPhase;";
    line 3 "files = (";
    line 4 "AA01 /* OldFile.swift in Sources */,";
    line 4 "E2DB26FA2E53A25D00139AA3 /* AssistantAppApp.swift in Sources */,";
    line 3 ");";
    line 2 "};";
    line 0 "/* End PBXSourcesBuildPhase section */";
    line 1 "};";
    line 0 "}"
  ].

(** Two membership items for one stale name, the second without an
    identifier of its own: deleting the first leaves the identifier before
    it in front of the second. *)
Definition spliced_document : text :=
  T "A1 A2 /* DebugView.swift in Sources */, /* DebugView.swift in Sources */,".


(** A file without the anchor. *)
Definition anchorless_document : text := line 0 "{" ++ line 0 "}".

(** A file without the anchor whose last characters are a new file's name. *)
Definition tail_document : text := T "path = ChatView.swift".

(** A file that mentions a longer name containing a new file's name. *)
Definition longer_name_document : text :=
  line 2 "AA05 /* MyChatView.swift */," ++ line 2 anchor_string.

(** * Properties *)

(** ** Text *)

Section TextFacts.

Lemma strip_prefix_app (p r : text) : strip_prefix p (p ++ r) = Some r.
Proof.
  induction p as [|a p IH]; simpl; [reflexivity|].
  now rewrite Ascii.eqb_refl.
Qed.

Lemma strip_prefix_Some (p s r : text) :
  strip_prefix p s = Some r -> s = p ++ r.
Proof.
  revert s; induction p as [|a p IH]; intros s; simpl.
  - now intros [= ->].
  - destruct s as [|b s]; [discriminate|].
    destruct (Ascii.eqb a b) eqn:E; [|discriminate].
    apply Ascii.eqb_eq in E; subst b.
    intros H; now rewrite (IH _ H).
Qed.

Lemma starts_with_true (p s : text) :
  starts_with p s = true <-> exists r, s = p ++ r.
Proof.
  unfold starts_with; split.
  - destruct (strip_prefix p s) eqn:E; [|discriminate].
    intros _; eexists; eauto using strip_prefix_Some.
  - intros [r ->]; now rewrite strip_prefix_app.
Qed.

(** [find_from] answers [-1] or an index not below its start. *)
Lemma find_from_range (needle s : text) (i : Z) :
  (0 <= i)%Z ->
  find_from needle s i = (-1)%Z \/
  (i <= find_from needle s i <= i + Z.of_nat (length s))%Z.
Proof.
  revert i; induction s as [|c s IH]; intros i Hi; simpl.
  - destruct (starts_with needle []); [right; cbn; lia | now left].
  - destruct (starts_with needle (c :: s)); [right; lia|].
    destruct (IH (i + 1)%Z ltac:(lia)) as [->|H]; [now left | right; lia].
Qed.

(** An index answered by [find_from] is where the first occurrence is. *)
Lemma find_from_found (needle s : text) (i : Z) :
  (0 <= i)%Z -> find_from needle s i <> (-1)%Z ->
  exists a b, s = a ++ needle ++ b /\
              find_from needle s i = (i + Z.of_nat (length a))%Z.
Proof.
  revert i; induction s as [|c s IH]; intros i Hi; simpl.
  - destruct (starts_with needle []) eqn:E; [|congruence].
    intros _. apply starts_with_true in E as [r E].
    exists [], r; cbn; split; [assumption | lia].
  - destruct (starts_with needle (c :: s)) eqn:E.
    + intros _. apply starts_with_true in E as [r E].
      exists [], r; cbn; split; [assumption | lia].
    + intros H. destruct (IH (i + 1)%Z ltac:(lia) H) as (a & b & -> & Hf).
      exists (c :: a), b; split; [reflexivity|].
      rewrite Hf; cbn [length]; lia.
Qed.

(** [find_from] misses no occurrence. *)
Lemma find_from_app (needle a b : text) (i : Z) :
  (0 <= i)%Z -> find_from needle (a ++ needle ++ b) i <> (-1)%Z.
Proof.
  revert i; induction a as [|c a IH]; intros i Hi.
  - cbn [app]. destruct (needle ++ b) eqn:E; simpl;
      unfold starts_with; rewrite <- E, strip_prefix_app; lia.
  - cbn [app find_from].
    destruct (starts_with needle (c :: a ++ needle ++ b)); [lia|].
    apply IH; lia.
Qed.

Lemma str_in_true (needle s : text) :
  str_in needle s = true <-> exists a b, s = a ++ needle ++ b.
Proof.
  unfold str_in, find; rewrite negb_true_iff, Z.eqb_neq; split.
  - intros H. destruct (find_from_found needle s 0 ltac:(lia) H)
      as (a & b & E & _); eauto.
  - intros (a & b & ->). apply find_from_app; lia.
Qed.

Lemma str_in_false (needle s : text) :
  str_in needle s = false <-> find needle s = (-1)%Z.
Proof.
  unfold str_in; now rewrite negb_false_iff, Z.eqb_eq.
Qed.

Lemma slice_to_from (i : Z) (s : text) : slice_to i s ++ slice_from i s = s.
Proof. apply firstn_skipn. Qed.

Lemma slice_index_inside (n len : nat) :
  n <= len -> slice_index (Z.of_nat n) len = n.
Proof.
  intros H; unfold slice_index.
  destruct (Z.ltb_spec (Z.of_nat n) 0); lia.
Qed.

Lemma slice_index_last (len : nat) : slice_index (-1) len = len - 1.
Proof. unfold slice_index; cbn [Z.ltb Z.compare]; lia. Qed.

Lemma slice_at_length (a b : text) :
  slice_to (Z.of_nat (length a)) (a ++ b) = a /\
  slice_from (Z.of_nat (length a)) (a ++ b) = b.
Proof.
  unfold slice_to, slice_from.
  rewrite slice_index_inside by (rewrite length_app; lia).
  split.
  - now rewrite firstn_app, Nat.sub_diag, firstn_all, app_nil_r.
  - now rewrite skipn_app, Nat.sub_diag, skipn_all.
Qed.

Lemma find_from_shift (needle s : text) (i j : Z) :
  find_from needle s i = (-1)%Z -> (0 <= i)%Z -> (0 <= j)%Z ->
  find_from needle s j = (-1)%Z.
Proof.
  revert i j; induction s as [|c s IH]; intros i j; simpl.
  - destruct (starts_with needle []); [lia | reflexivity].
  - destruct (starts_with needle (c :: s)); [lia|].
    intros H Hi Hj. apply (IH (i + 1)%Z); [assumption | lia | lia].
Qed.

Lemma str_in_cons (needle : text) (c : ascii) (s : text) :
  str_in needle (c :: s) = starts_with needle (c :: s) || str_in needle s.
Proof.
  unfold str_in, find; cbn [find_from].
  destruct (starts_with needle (c :: s)); [reflexivity|]. cbn [orb].
  change (0 + 1)%Z with 1%Z.
  destruct (Z.eqb_spec (find_from needle s 0) (-1)) as [E|E].
  - now rewrite (find_from_shift _ _ 0 1 E) by lia.
  - destruct (Z.eqb_spec (find_from needle s 1) (-1)) as [E'|E'];
      [|reflexivity].
    now rewrite (find_from_shift _ _ 1 0 E') in E by lia.
Qed.

Lemma str_in_app_l (needle a b : text) :
  str_in needle a = true -> str_in needle (a ++ b) = true.
Proof.
  rewrite !str_in_true; intros (u & v & ->).
  exists u, (v ++ b); now rewrite <- !app_assoc.
Qed.

Lemma str_in_app_r (needle a b : text) :
  str_in needle b = true -> str_in needle (a ++ b) = true.
Proof.
  rewrite !str_in_true; intros (u & v & ->).
  exists (a ++ u), v; now rewrite <- !app_assoc.
Qed.

(** A prefix that lacks the character [c] ends before any [c]. *)
Lemma starts_with_before (needle a : text) (c : ascii) (b : text) :
  ~ In c needle -> starts_with needle (a ++ c :: b) = true ->
  starts_with needle a = true.
Proof.
  unfold starts_with; revert a; induction needle as [|x needle IH];
    intros a Hc; [reflexivity|].
  destruct a as [|y a]; cbn [app strip_prefix].
  - destruct (Ascii.eqb_spec x c) as [->|_]; [|discriminate].
    exfalso; apply Hc; now left.
  - destruct (Ascii.eqb x y); [|discriminate].
    apply IH; intros H; apply Hc; now right.
Qed.

(** An occurrence of a name that lacks [c], in a text cut before a [c], lies
    on one side of the cut. *)
Lemma str_in_app_cut (needle a : text) (c : ascii) (b : text) :
  ~ In c needle -> str_in needle (a ++ c :: b) = true ->
  str_in needle a = true \/ str_in needle (c :: b) = true.
Proof.
  intros Hc; induction a as [|y a IH]; cbn [app]; [now right|].
  rewrite str_in_cons, orb_true_iff; intros [H|H].
  - left. apply (starts_with_before needle (y :: a) c b Hc) in H.
    rewrite str_in_cons, H; reflexivity.
  - destruct (IH H) as [H'|H']; [left | now right].
    rewrite str_in_cons, H'; apply orb_true_r.
Qed.

End TextFacts.

(** ** The matcher and the substitution *)

Module ReFacts.
Import Re.

Section Continuation.
Variable k : cls.
Variable rest : text -> option nat.

(** A repetition consumes no more than there is, when what follows it
    does not. *)
Lemma greedy_bound :
  (forall s n, rest s = Some n -> n <= length s) ->
  forall s n, greedy k rest s = Some n -> n <= length s.
Proof.
  intros Hrest s; induction s as [|c s IH]; intros n; cbn [greedy].
  - apply Hrest.
  - destruct (mem k c); [|apply Hrest].
    destruct (greedy k rest s) as [m|] eqn:E.
    + intros [= <-]. specialize (IH m eq_refl). cbn [length]. lia.
    + apply Hrest.
Qed.

(** It consumes something as soon as what follows it always does. *)
Lemma greedy_positive :
  (forall s n, rest s = Some n -> 0 < n) ->
  forall s n, greedy k rest s = Some n -> 0 < n.
Proof.
  intros Hrest s; induction s as [|c s IH]; intros n; cbn [greedy].
  - apply Hrest.
  - destruct (mem k c); [|apply Hrest].
    destruct (greedy k rest s) as [m|]; [intros [= <-]; lia | apply Hrest].
Qed.
End Continuation.

Lemma match_here_bound (p : pattern) :
  forall s n, match_here p s = Some n -> n <= length s.
Proof.
  induction p as [|i q IH]; intros s n; cbn [match_here].
  - intros [= <-]; lia.
  - destruct i as [k|k|l].
    + now apply greedy_bound.
    + destruct s as [|c s]; [discriminate|].
      destruct (mem k c); [|discriminate].
      destruct (greedy k (match_here q) s) as [m|] eqn:E; [|discriminate].
      intros [= <-]. apply greedy_bound in E; [cbn [length]; lia | exact IH].
    + destruct (strip_prefix l s) as [r|] eqn:E; [|discriminate].
      apply strip_prefix_Some in E; subst s.
      destruct (match_here q r) as [m|] eqn:E; [|discriminate].
      intros [= <-]. apply IH in E. rewrite length_app. lia.
Qed.

Lemma positive_head (k1 k2 : cls) (q : pattern) :
  positive (Many0 k1 :: Many1 k2 :: q).
Proof.
  intros s n; cbn [match_here]. apply greedy_positive.
  clear; intros [|c s] n; [discriminate|].
  destruct (mem k2 c); [|discriminate].
  destruct (greedy k2 (match_here q) s); [|discriminate].
  intros [= <-]; lia.
Qed.

Lemma positive_patterns_of (name : text) (p : pattern) :
  In p (patterns_of name) -> positive p.
Proof.
  intros [<-|[<-|[<-|[]]]]; apply positive_head.
Qed.

Lemma sub_from_length (p : pattern) (s : text) :
  forall skip, length (sub_from p skip s) <= length s.
Proof.
  induction s as [|c s IH]; intros skip; cbn [sub_from length]; [lia|].
  destruct skip as [|j].
  - destruct (match_here p (c :: s)) as [[|m]|]; cbn [length];
      try (specialize (IH 0); lia).
    specialize (IH m); lia.
  - specialize (IH j); lia.
Qed.

Lemma sub_length (p : pattern) (s : text) : length (sub p s) <= length s.
Proof. apply sub_from_length. Qed.

(** Where [p] matches nowhere, [re.sub] returns its argument. *)
Lemma sub_no_match (p : pattern) (s : text) :
  search p s = false -> sub p s = s.
Proof.
  unfold sub; induction s as [|c s IH]; cbn [search sub_from]; [reflexivity|].
  destruct (match_here p (c :: s)); [discriminate|].
  intros H; now rewrite IH.
Qed.

(** A substitution that keeps the length has matched nowhere. *)
Lemma sub_same_length (p : pattern) (s : text) :
  positive p -> length (sub p s) = length s -> search p s = false.
Proof.
  intros Hp; unfold sub; induction s as [|c s IH]; cbn [search sub_from length].
  - intros _. destruct (match_here p []) as [n|] eqn:E; [|reflexivity].
    pose proof (Hp _ _ E). apply match_here_bound in E. cbn in E; lia.
  - destruct (match_here p (c :: s)) as [[|m]|] eqn:E.
    + apply Hp in E; lia.
    + pose proof (sub_from_length p s m); lia.
    + cbn [length]; intros H; apply IH; lia.
Qed.

Lemma sub_fixed (p : pattern) (s : text) :
  positive p -> (sub p s = s <-> search p s = false).
Proof.
  intros Hp; split; [|apply sub_no_match].
  intros H; apply sub_same_length; [assumption | now rewrite H].
Qed.

(** *** The matcher finds occurrences, and misses none *)

Lemma greedy_sound (k : cls) (q : pattern) (s : text) :
  (forall s n, match_here q s = Some n ->
     exists m r, s = m ++ r /\ length m = n /\ Matches q m) ->
  forall n, greedy k (match_here q) s = Some n ->
    exists w m r, s = w ++ m ++ r /\ forallb (mem k) w = true /\
                  Matches q m /\ n = length w + length m.
Proof.
  intros Hq; induction s as [|c s IH]; intros n; cbn [greedy].
  - intros H; destruct (Hq _ _ H) as (m & r & E & L & M).
    exists [], m, r; repeat split; auto.
  - assert (Stop : match_here q (c :: s) = Some n ->
              exists w m r, c :: s = w ++ m ++ r /\
                forallb (mem k) w = true /\ Matches q m /\
                n = length w + length m).
    { intros H; destruct (Hq _ _ H) as (m & r & E & L & M).
      exists [], m, r; repeat split; auto. }
    destruct (mem k c) eqn:Ec; [|exact Stop].
    destruct (greedy k (match_here q) s) as [j|] eqn:G; [|exact Stop].
    intros [= <-]. destruct (IH j eq_refl) as (w & m & r & E & W & M & L).
    exists (c :: w), m, r; subst s; cbn [forallb app length].
    rewrite Ec, W; repeat split; auto. lia.
Qed.

Lemma match_here_sound (p : pattern) :
  forall s n, match_here p s = Some n ->
    exists m r, s = m ++ r /\ length m = n /\ Matches p m.
Proof.
  induction p as [|i q IH]; intros s n; cbn [match_here].
  - intros [= <-]; exists [], s; repeat split; constructor.
  - destruct i as [k|k|l].
    + intros H. destruct (greedy_sound k q s IH n H)
        as (w & m & r & E & W & M & L).
      exists (w ++ m), r; rewrite <- app_assoc, length_app.
      repeat split; auto. now constructor.
    + destruct s as [|c s]; [discriminate|].
      destruct (mem k c) eqn:Ec; [|discriminate].
      destruct (greedy k (match_here q) s) as [j|] eqn:G; [|discriminate].
      intros [= <-].
      destruct (greedy_sound k q s IH j G) as (w & m & r & E & W & M & L).
      exists ((c :: w) ++ m), r; subst s.
      rewrite <- app_assoc, length_app; cbn [length app].
      repeat split; [lia|].
      apply (MatchesMany1 k q (c :: w) m);
        [discriminate | cbn [forallb]; now rewrite Ec | assumption].
    + destruct (strip_prefix l s) as [r|] eqn:E; [|discriminate].
      apply strip_prefix_Some in E; subst s.
      destruct (match_here q r) as [j|] eqn:G; [|discriminate].
      intros [= <-]. destruct (IH _ _ G) as (m & r' & E & L & M).
      exists (l ++ m), r'; subst r; rewrite <- app_assoc, length_app.
      repeat split; [lia | now constructor].
Qed.

Lemma greedy_some (k : cls) (rest : text -> option nat) (s : text) :
  rest s <> None -> greedy k rest s <> None.
Proof.
  destruct s as [|c s]; cbn [greedy]; [auto|].
  destruct (mem k c); [|auto].
  destruct (greedy k rest s); [discriminate | auto].
Qed.

Lemma greedy_run (k : cls) (rest : text -> option nat) (w s : text) :
  forallb (mem k) w = true -> rest s <> None ->
  greedy k rest (w ++ s) <> None.
Proof.
  induction w as [|c w IH]; cbn [forallb app]; intros W H.
  - now apply greedy_some.
  - apply andb_true_iff in W as [Ec W]. cbn [greedy]; rewrite Ec.
    specialize (IH W H).
    destruct (greedy k rest (w ++ s)); [discriminate | contradiction].
Qed.

Lemma match_here_complete (p : pattern) (m : text) :
  Matches p m -> forall r, match_here p (m ++ r) <> None.
Proof.
  induction 1 as [|k q w m W M IH|k q w m Hw W M IH|l q m M IH]; intros r;
    cbn [match_here].
  - discriminate.
  - rewrite <- app_assoc. now apply greedy_run.
  - destruct w as [|c w]; [contradiction|].
    cbn [forallb] in W; apply andb_true_iff in W as [Ec W].
    cbn [app]; rewrite Ec.
    pose proof (greedy_run k (match_here q) w (m ++ r) W (IH r)) as G.
    rewrite <- app_assoc.
    destruct (greedy k (match_here q) (w ++ m ++ r));
      [discriminate | contradiction].
  - rewrite <- app_assoc, strip_prefix_app.
    specialize (IH r). destruct (match_here q (m ++ r));
      [discriminate | contradiction].
Qed.

(** [search] answers whether some stretch of the document is an occurrence
    of the pattern. *)
Lemma search_spec (p : pattern) (s : text) :
  search p s = true <-> exists a m b, s = a ++ m ++ b /\ Matches p m.
Proof.
  split.
  - induction s as [|c s IH]; cbn [search].
    + destruct (match_here p []) as [n|] eqn:E; [|discriminate].
      intros _. destruct (match_here_sound p _ _ E) as (m & r & E' & _ & M).
      exists [], m, r; auto.
    + destruct (match_here p (c :: s)) as [n|] eqn:E.
      * intros _. destruct (match_here_sound p _ _ E) as (m & r & E' & _ & M).
        exists [], m, r; auto.
      * intros H; destruct (IH H) as (a & m & b & -> & M).
        exists (c :: a), m, b; auto.
  - intros (a & m & b & -> & M).
    induction a as [|c a IH]; cbn [app].
    + pose proof (match_here_complete p m M b) as H.
      destruct (m ++ b); cbn [search];
        destruct (match_here p _); try reflexivity; contradiction.
    + cbn [search]. destruct (match_here p (c :: a ++ m ++ b));
        [reflexivity | exact IH].
Qed.

(** *** What a substitution keeps *)

Lemma sub_from_kept (p : pattern) (s : text) :
  forall skip, sub_from p skip s = concat (kept_from p skip s).
Proof.
  induction s as [|c s IH]; intros skip; cbn [sub_from kept_from];
    [reflexivity|].
  destruct skip as [|k]; [|apply IH].
  assert (Keep : c :: sub_from p 0 s =
                 concat match kept_from p 0 s with
                        | g :: gs => (c :: g) :: gs
                        | [] => [[c]]
                        end).
  { rewrite (IH 0). now destruct (kept_from p 0 s). }
  destruct (match_here p (c :: s)) as [[|n]|]; [exact Keep | | exact Keep].
  cbn [concat app]. apply IH.
Qed.

(** The first stretch kept is a prefix of the text still to be scanned. *)
Lemma kept_from_head (p : pattern) (s : text) :
  exists g gs r, kept_from p 0 s = g :: gs /\ s = g ++ r.
Proof.
  induction s as [|c s IH]; cbn [kept_from].
  - exists [], [], []; auto.
  - destruct IH as (g & gs & r & E & Es).
    destruct (match_here p (c :: s)) as [[|n]|].
    + rewrite E. exists (c :: g), gs, r; subst s; auto.
    + exists [], (kept_from p n s), (c :: s); auto.
    + rewrite E. exists (c :: g), gs, r; subst s; auto.
Qed.

(** A match at the head of a text is a match at the head of any
    extension of it. *)
Lemma match_here_extend (p : pattern) (s r : text) :
  match_here p s <> None -> match_here p (s ++ r) <> None.
Proof.
  destruct (match_here p s) as [n|] eqn:E; [intros _ | contradiction].
  destruct (match_here_sound p _ _ E) as (m & r' & -> & _ & M).
  rewrite <- app_assoc. now apply match_here_complete.
Qed.

(** No stretch kept by a substitution contains an occurrence of its
    pattern: the scan deletes every occurrence it meets. *)
Lemma kept_from_clean (p : pattern) (s : text) :
  positive p ->
  forall skip, Forall (fun g => search p g = false) (kept_from p skip s).
Proof.
  intros Hp; induction s as [|c s IH]; intros skip; cbn [kept_from].
  - constructor; [|constructor]. cbn [search].
    destruct (match_here p []) as [n|] eqn:E; [|reflexivity].
    pose proof (Hp _ _ E). apply match_here_bound in E. cbn in E; lia.
  - destruct skip as [|k]; [|apply IH].
    destruct (match_here p (c :: s)) as [[|n]|] eqn:E.
    + apply Hp in E; lia.
    + constructor; [|apply IH]. cbn [search].
      destruct (match_here p []) as [j|] eqn:E0; [|reflexivity].
      pose proof (Hp _ _ E0). apply match_here_bound in E0. cbn in E0; lia.
    + destruct (kept_from_head p s) as (g & gs & r & Eg & Es).
      specialize (IH 0); rewrite Eg in *.
      apply Forall_cons_iff in IH as [Hg Hgs].
      constructor; [|assumption]. cbn [search].
      destruct (match_here p (c :: g)) as [j|] eqn:Ej; [|assumption].
      exfalso. apply (match_here_extend p (c :: g) r); [congruence|].
      cbn [app]; now rewrite <- Es.
Qed.

Lemma sub_kept (p : pattern) (s : text) :
  positive p ->
  sub p s = concat (kept p s) /\
  Forall (fun g => search p g = false) (kept p s).
Proof.
  intros Hp; split; [apply sub_from_kept | now apply kept_from_clean].
Qed.

End ReFacts.

(** ** The removal step *)

Section Removal.
Import ReFacts.

Lemma remove_file_length (content name : text) :
  length (remove_file content name) <= length content.
Proof.
  unfold remove_file.
  etransitivity; [apply sub_length|].
  etransitivity; [apply sub_length|]. apply sub_length.
Qed.

Lemma remove_stale_length (names : list text) :
  forall content, length (remove_stale content names) <= length content.
Proof.
  unfold remove_stale; induction names as [|f names IH]; intros content;
    cbn [fold_left]; [lia|].
  etransitivity; [apply IH | apply remove_file_length].
Qed.

Lemma shape_free_cons (content name : text) (names : list text) :
  shape_free content (name :: names) = true <->
  (Re.search (build_file_pattern name) content = false /\
   Re.search (file_ref_pattern name) content = false /\
   Re.search (build_phase_pattern name) content = false) /\
  shape_free content names = true.
Proof.
  unfold shape_free; cbn [forallb patterns_of].
  rewrite !andb_true_iff, !negb_true_iff. tauto.
Qed.

(** A name none of whose shapes occurs is removed without effect. *)
Lemma remove_file_absent (content name : text) :
  shape_free content [name] = true -> remove_file content name = content.
Proof.
  rewrite shape_free_cons; intros [(H1 & H2 & H3) _]; unfold remove_file.
  now rewrite (sub_no_match _ _ H1), (sub_no_match _ _ H2), (sub_no_match _ _ H3).
Qed.

(** A removal that keeps the length found none of the three shapes. *)
Lemma remove_file_same_length (content name : text) :
  length (remove_file content name) = length content ->
  shape_free content [name] = true.
Proof.
  unfold remove_file; intros H.
  set (c1 := Re.sub (build_file_pattern name) content) in *.
  set (c2 := Re.sub (file_ref_pattern name) c1) in *.
  pose proof (sub_length (build_file_pattern name) content) as L1.
  pose proof (sub_length (file_ref_pattern name) c1) as L2.
  pose proof (sub_length (build_phase_pattern name) c2) as L3.
  fold c1 in L1; fold c2 in L2.
  assert (E1 : Re.search (build_file_pattern name) content = false)
    by (apply sub_same_length; [apply positive_head | fold c1; lia]).
  assert (C1 : c1 = content) by (apply sub_no_match, E1).
  assert (E2 : Re.search (file_ref_pattern name) c1 = false)
    by (apply sub_same_length; [apply positive_head | fold c2; lia]).
  assert (C2 : c2 = c1) by (apply sub_no_match, E2).
  assert (E3 : Re.search (build_phase_pattern name) c2 = false)
    by (apply sub_same_length; [apply positive_head | lia]).
  rewrite C2, C1 in E3; rewrite C1 in E2.
  apply shape_free_cons; repeat split; assumption.
Qed.

(** [shape_free] says that no listed name has an occurrence of one of its
    three shapes anywhere in the document. *)
Lemma shape_free_spec (content : text) (names : list text) :
  shape_free content names = true <->
  forall name p, In name names -> In p (patterns_of name) ->
                 ~ occurs p content.
Proof.
  unfold shape_free, occurs; rewrite forallb_forall; split.
  - intros H name p Hn Hp Hocc. specialize (H name Hn).
    rewrite forallb_forall in H. specialize (H p Hp).
    apply search_spec in Hocc. rewrite Hocc in H; discriminate.
  - intros H name Hn. apply forallb_forall; intros p Hp.
    destruct (Re.search p content) eqn:E; [|reflexivity].
    exfalso; apply (H name p Hn Hp). now apply search_spec.
Qed.

Lemma sub_deletes_what_it_meets (p : Re.pattern) (s : text) :
  Re.positive p -> deletes_what_it_meets p s.
Proof.
  intros Hp; destruct (sub_kept p s Hp) as [E F]; split; [exact E|].
  apply Forall_forall; intros g Hg Hocc.
  rewrite Forall_forall in F. specialize (F g Hg).
  apply search_spec in Hocc. congruence.
Qed.

Lemma remove_stale_absent (names : list text) (content : text) :
  shape_free content names = true -> remove_stale content names = content.
Proof.
  unfold remove_stale; induction names as [|f names IH]; cbn [fold_left];
    [reflexivity|].
  intros H; apply shape_free_cons in H as [H3 Hn].
  rewrite remove_file_absent; [now apply IH|].
  apply shape_free_cons; split; [assumption | reflexivity].
Qed.

Lemma remove_stale_fixed (names : list text) (content : text) :
  remove_stale content names = content -> shape_free content names = true.
Proof.
  unfold remove_stale; induction names as [|f names IH]; cbn [fold_left];
    [reflexivity|].
  intros H.
  assert (L : length (remove_file content f) = length content).
  { pose proof (remove_file_length content f).
    pose proof (remove_stale_length names (remove_file content f)) as L.
    unfold remove_stale in L; rewrite H in L; lia. }
  pose proof (remove_file_same_length _ _ L) as F.
  rewrite (remove_file_absent _ _ F) in H.
  apply shape_free_cons; split; [|now apply IH].
  now apply shape_free_cons in F as [F _].
Qed.

End Removal.

(** ** The insertion step *)

Section Insertion.

Lemma insert_entry_present (pos : Z) (content filename file_id : text) :
  str_in filename content = true ->
  insert_entry pos content (filename, file_id) = content.
Proof. intros H; cbn [insert_entry]; now rewrite H. Qed.

Lemma insert_entry_absent (pos : Z) (content filename file_id : text) :
  str_in filename content = false ->
  insert_entry pos content (filename, file_id) =
  slice_to pos content ++ build_entry filename file_id ++ slice_from pos content.
Proof. intros H; cbn [insert_entry]; now rewrite H. Qed.

(** The slices at [-1] cut before the last character. *)
Lemma insert_entry_not_found (content filename file_id : text) :
  str_in filename content = false ->
  insert_entry (-1) content (filename, file_id) =
  insert_before_last content (build_entry filename file_id).
Proof.
  intros H; rewrite insert_entry_absent by assumption.
  unfold slice_to, slice_from, insert_before_last.
  now rewrite slice_index_last.
Qed.

Lemma build_entry_mentions (filename file_id : text) :
  str_in filename (build_entry filename file_id) = true.
Proof.
  apply str_in_true. unfold build_entry.
  exists ([TAB; TAB] ++ file_id ++ T "_BUILD /* "). eexists.
  rewrite <- !app_assoc. reflexivity.
Qed.

(** A loop over entries whose names are all there changes nothing. *)
Lemma insert_loop_present (pos : Z) (entries : list (text * text)) :
  forall content,
    (forall filename file_id,
        In (filename, file_id) entries -> str_in filename content = true) ->
    fold_left (insert_entry pos) entries content = content.
Proof.
  induction entries as [|[fn id] entries IH]; intros content H;
    cbn [fold_left]; [reflexivity|].
  rewrite insert_entry_present by (apply (H fn id); now left).
  apply IH; intros fn' id' Hin; apply (H fn' id'); now right.
Qed.

(** A loop over entries whose names are all in the document changes nothing,
    wherever the anchor is. *)
Lemma insert_new_all_present (content : text) (entries : list (text * text)) :
  (forall filename file_id,
      In (filename, file_id) entries -> str_in filename content = true) ->
  insert_new content entries = content.
Proof. intros H; unfold insert_new; now apply insert_loop_present. Qed.

(** A name found in the line inserted for the entry before it is skipped. *)
Lemma insert_entry_after_line (pos : Z) (content : text)
    (filename file_id filename' file_id' : text) :
  str_in filename content = false ->
  str_in filename' (build_entry filename file_id) = true ->
  fold_left (insert_entry pos)
    [(filename, file_id); (filename', file_id')] content =
  insert_entry pos content (filename, file_id).
Proof.
  intros H H'; cbn [fold_left].
  rewrite (insert_entry_absent pos content filename file_id H).
  apply insert_entry_present. now apply str_in_app_r, str_in_app_l.
Qed.

Lemma unsplittable_cons (e : text * text) (entries : list (text * text)) :
  unsplittable (e :: entries) = true ->
  (forall c, c = TAB \/ c = "E"%char -> ~ In c (fst e)) /\
  unsplittable entries = true.
Proof.
  unfold unsplittable; cbn [forallb].
  rewrite !andb_true_iff, !negb_true_iff; intros [[Ht He] Hr].
  split; [|assumption].
  intros c [->| ->] Hin.
  - assert (H : existsb (Ascii.eqb TAB) (fst e) = true);
      [|exact (eq_true_false_abs _ H Ht)].
    apply existsb_exists; exists TAB; split; [assumption|].
    apply Ascii.eqb_refl.
  - assert (H : existsb (Ascii.eqb "E"%char) (fst e) = true);
      [|exact (eq_true_false_abs _ H He)].
    apply existsb_exists; exists "E"%char; split; [assumption|].
    apply Ascii.eqb_refl.
Qed.

Lemma unsplittable_In (entries : list (text * text))
    (filename file_id : text) (c : ascii) :
  unsplittable entries = true -> In (filename, file_id) entries ->
  c = TAB \/ c = "E"%char -> ~ In c filename.
Proof.
  induction entries as [|e entries IH]; intros U Hin Hc; [destruct Hin|].
  apply unsplittable_cons in U as [Ue U].
  destruct Hin as [->|Hin]; [exact (Ue c Hc) | now apply IH].
Qed.

(** With the insertion point at the end of [a], an absent name's line goes
    between [a] and what follows it. *)
Lemma insert_entry_at_cut (a y filename file_id : text) :
  str_in filename (a ++ y) = false ->
  insert_entry (Z.of_nat (length a)) (a ++ y) (filename, file_id) =
  a ++ build_entry filename file_id ++ y.
Proof.
  intros H; rewrite insert_entry_absent by assumption.
  now destruct (slice_at_length a y) as [-> ->].
Qed.

Section AtTheAnchor.
Variable a : text.

Lemma build_entry_head (filename file_id : text) :
  build_entry filename file_id = TAB :: tl (build_entry filename file_id).
Proof. reflexivity. Qed.

(** The loop puts lines between [a] and what followed it, and afterwards
    every name of the list is in the document: either its line was inserted,
    or the name was there and no line has split it. *)
Lemma insert_loop_shape (entries : list (text * text)) :
  unsplittable entries = true ->
  forall c y, c = TAB \/ c = "E"%char ->
  exists x,
    fold_left (insert_entry (Z.of_nat (length a))) entries (a ++ c :: y) = a ++ x ++ c :: y /\
    forall filename file_id, In (filename, file_id) entries ->
      str_in filename (a ++ x ++ c :: y) = true.
Proof.
  induction entries as [|[fn id] entries IH]; intros U c y Hc.
  { exists []; split; [reflexivity | intros ? ? []]. }
  apply unsplittable_cons in U as [Ufn U]; cbn [fst] in Ufn.
  cbn [fold_left].
  destruct (str_in fn (a ++ c :: y)) eqn:E.
  - rewrite insert_entry_present by assumption.
    destruct (IH U c y Hc) as (x & Hx & Hn).
    exists x; split; [assumption|].
    intros fn' id' [[= <- <-]|Hin]; [|now apply (Hn fn' id')].
    destruct (str_in_app_cut fn a c y (Ufn c Hc) E) as [H|H].
    + now apply str_in_app_l.
    + now apply str_in_app_r, str_in_app_r.
  - rewrite insert_entry_at_cut by assumption.
    rewrite build_entry_head; cbn [app].
    destruct (IH U TAB (tl (build_entry fn id) ++ c :: y) (or_introl eq_refl))
      as (x & Hx & Hn).
    exists (x ++ build_entry fn id).
    assert (R : a ++ (x ++ build_entry fn id) ++ c :: y =
                a ++ x ++ TAB :: tl (build_entry fn id) ++ c :: y).
    { rewrite (build_entry_head fn id) at 1.
      now rewrite <- !app_assoc. }
    rewrite R; split; [exact Hx|].
    intros fn' id' [[= <- <-]|Hin]; [|now apply (Hn fn' id')].
    rewrite <- R. apply str_in_app_r, str_in_app_l, str_in_app_r.
    apply build_entry_mentions.
Qed.

(** Entries whose names were in the document to begin with, on one side of
    the insertion point, are skipped: the loop runs as if they were not in
    the list. *)
Lemma insert_loop_filter (present : text -> bool)
    (entries : list (text * text)) :
  unsplittable entries = true ->
  forall c y, c = TAB \/ c = "E"%char ->
    (forall filename file_id,
        In (filename, file_id) entries -> present filename = true ->
        str_in filename a = true \/ str_in filename (c :: y) = true) ->
    fold_left (insert_entry (Z.of_nat (length a))) entries (a ++ c :: y) =
    fold_left (insert_entry (Z.of_nat (length a)))
      (filter (fun e => negb (present (fst e))) entries) (a ++ c :: y).
Proof.
  induction entries as [|[fn id] entries IH]; intros U c y Hc Hp;
    [reflexivity|].
  apply unsplittable_cons in U as [_ U].
  assert (Hp' : forall filename file_id,
             In (filename, file_id) entries -> present filename = true ->
             str_in filename a = true \/ str_in filename (c :: y) = true).
  { intros fn' id' Hin; apply (Hp fn' id'); now right. }
  cbn [fold_left filter fst].
  destruct (present fn) eqn:P; cbn [negb].
  - rewrite insert_entry_present; [now apply IH|].
    destruct (Hp fn id (or_introl eq_refl) P) as [H|H];
      [now apply str_in_app_l | now apply str_in_app_r].
  - cbn [fold_left].
    destruct (str_in fn (a ++ c :: y)) eqn:E.
    + rewrite insert_entry_present by assumption. now apply IH.
    + rewrite insert_entry_at_cut by assumption.
      rewrite build_entry_head; cbn [app].
      apply (IH U TAB _ (or_introl eq_refl)).
      intros fn' id' Hin P'.
      destruct (Hp' fn' id' Hin P') as [H|H]; [now left | right].
      change (TAB :: tl (build_entry fn id) ++ c :: y)
        with ((TAB :: tl (build_entry fn id)) ++ c :: y).
      now apply str_in_app_r.
Qed.

End AtTheAnchor.

End Insertion.

(** ** The script as a whole *)

Section Script.

Lemma main_read_fails (w : world) (e : exn) :
  fst (read_file project_path w) = Raise e -> main w = (Raise e, w).
Proof.
  unfold main, bind, read_file.
  destruct (files w project_path) as [f|]; [destruct (readable f)|];
    cbn [fst]; intros [= <-]; reflexivity.
Qed.


(** When the file can be read but not written, the message is printed all
    the same, and the script then fails with the file as it was. *)
Lemma main_write_fails (w : world) (f : file) :
  files w project_path = Some f -> readable f = true -> writable f = false ->
  main w =
  (Raise PermissionError,
   {| files := files w;
      stdout := stdout w ++ [success_message ++ [NL]];
      trace := trace w ++ [Read project_path; Print success_message] |}).
Proof.
  intros Hf Hr Hw.
  unfold main, bind, read_file, print, write_file, log; cbn.
  rewrite Hf, Hr; cbn. rewrite Hf, Hw; cbn.
  rewrite <- !app_assoc. reflexivity.
Qed.

End Script.

(** * The claims *)


(** C2, as stated, fails. In a file without the anchor, [find] answers [-1],
    and the slices at [-1] cut before the last character: the entry lands
    before the final newline of [anchorless_document], not at position 0. *)
Lemma missing_anchor_not_at_position_0 :
  str_in anchor anchorless_document = false /\
  str_in NewFile anchorless_document = false /\
  insert_new anchorless_document [(NewFile, T "ID1")] <>
    build_entry NewFile (T "ID1") ++ anchorless_document.
Proof.
  repeat split; try (vm_compute; reflexivity).
  vm_compute; discriminate.
Qed.

(** C2, amended. Missing-anchor degradation: in every document without the
    anchor, the insertion step (a total function: no slice raises) inserts
    each entry whose name is absent from the document as it then stands
    immediately before the document's last character, and keeps every
    existing character, in order, around the inserted line. *)
Theorem insertion_without_anchor (content : text)
    (entries : list (text * text)) :
  str_in anchor content = false ->
  insert_new content entries =
    fold_left
      (fun c e =>
         if str_in (fst e) c then c
         else insert_before_last c (build_entry (fst e) (snd e)))
      entries content
  /\ forall c entry, exists a b,
       c = a ++ b /\ length b <= 1 /\
       insert_before_last c entry = a ++ entry ++ b.
Proof.
  intros H; apply str_in_false in H; split.
  - unfold insert_new; rewrite H.
    clear H; revert content; induction entries as [|[fn id] entries IH];
      intros content; cbn [fold_left fst snd]; [reflexivity|].
    destruct (str_in fn content) eqn:E.
    + rewrite insert_entry_present by assumption. now apply IH.
    + rewrite insert_entry_not_found by assumption. now apply IH.
  - intros c entry.
    exists (firstn (length c - 1) c), (skipn (length c - 1) c).
    repeat split.
    + now rewrite firstn_skipn.
    + rewrite length_skipn; lia.
Qed.

Lemma insertion_without_anchor_witness :
  insert_new anchorless_document [(NewFile, T "ID1")] =
  T "{" ++ [NL] ++ T "}" ++ build_entry NewFile (T "ID1") ++ [NL].
Proof.
  destruct (insertion_without_anchor anchorless_document
              [(NewFile, T "ID1")]) as [E _]; [vm_compute; reflexivity|].
  rewrite E. vm_compute. reflexivity.
Defined.

(** C3, as stated, fails. One removal of [spliced_document] deletes the item
    [A2 ...,] and thereby puts [A1] in front of the second comment; a second
    removal then deletes that too. *)
Lemma removal_not_idempotent :
  remove_stale (remove_stale spliced_document old_files) old_files <>
  remove_stale spliced_document old_files.
Proof. vm_compute; discriminate. Qed.

(** C3, amended. Idempotence of removal holds for every document and list
    of stale names for which one removal leaves none of the three shapes of
    any listed name: then removing again returns the same document. *)
Theorem removal_idempotent_when_clean (content : text) (names : list text) :
  shape_free (remove_stale content names) names = true ->
  remove_stale (remove_stale content names) names =
  remove_stale content names.
Proof. apply remove_stale_absent. Qed.

Lemma removal_idempotent_when_clean_witness :
  remove_stale (remove_stale scenario_document [OldFile]) [OldFile] =
  remove_stale scenario_document [OldFile].
Proof.
  apply (removal_idempotent_when_clean scenario_document [OldFile]).
  vm_compute. reflexivity.
Defined.

(** C4, as stated, fails. [tail_document] has no anchor and ends with
    [ChatView.swift]; the entry for AuthManager.swift is inserted before the
    last character and splits that occurrence, so that when the turn of
    ChatView.swift comes its name is no longer found and a declaration line
    is added for it. *)
Lemma present_name_gets_a_line :
  In (T "ChatView.swift", T "E2DB26F32E53A25D00139AA3") new_files /\
  str_in (T "ChatView.swift") tail_document = true /\
  occurrences
    (build_entry (T "ChatView.swift") (T "E2DB26F32E53A25D00139AA3"))
    tail_document = 0 /\
  occurrences
    (build_entry (T "ChatView.swift") (T "E2DB26F32E53A25D00139AA3"))
    (insert_new tail_document new_files) = 1.
Proof.
  repeat split; try (vm_compute; reflexivity).
  right; left; reflexivity.
Qed.

(** C4, amended. Non-duplication of insertion: for every document that
    contains the anchor and every list of new entries whose file names
    contain neither a tab nor the letter E (the script's own list is one),
    an entry whose file name already occurs in the document adds no
    declaration line, the insertion step giving the same document as without
    that entry in the list; and re-running the insertion step after it has
    run once changes nothing. *)
Theorem insertion_skips_present_names (content : text)
    (entries : list (text * text)) :
  str_in anchor content = true ->
  unsplittable entries = true ->
  insert_new content entries =
    insert_new content (absent_from content entries) /\
  insert_new (insert_new content entries) entries =
    insert_new content entries.
Proof.
  intros Ha U.
  assert (Hn : find anchor content <> (-1)%Z).
  { intros E; apply str_in_false in E; congruence. }
  destruct (find_from_found anchor content 0 ltac:(lia) Hn)
    as (a & b & E & Hp).
  rewrite Z.add_0_l in Hp; fold (find anchor content) in Hp.
  assert (Ec : content = a ++ "E"%char :: (tl anchor ++ b)) by exact E.
  split.
  - unfold insert_new, absent_from; rewrite Hp.
    pose (present := fun fn => str_in fn content).
    change (fun e : text * text => negb (str_in (fst e) content))
      with (fun e : text * text => negb (present (fst e))).
    assert (Hpr : forall fn, present fn = str_in fn content) by reflexivity.
    clearbody present. rewrite Ec.
    apply (insert_loop_filter a present entries U
             "E"%char (tl anchor ++ b) (or_intror eq_refl)).
    intros fn id Hin Hfn. rewrite Hpr, Ec in Hfn.
    apply (str_in_app_cut fn a "E"%char (tl anchor ++ b)); [|assumption].
    apply (unsplittable_In entries fn id); auto.
  - destruct (insert_loop_shape a entries U "E"%char (tl anchor ++ b)
                (or_intror eq_refl)) as (x & Hx & Hnames).
    assert (R : insert_new content entries =
                a ++ x ++ "E"%char :: (tl anchor ++ b)).
    { unfold insert_new; rewrite Hp. clear Hp Hn Ha E.
      rewrite Ec. exact Hx. }
    rewrite R. now apply insert_new_all_present.
Qed.

Lemma insertion_skips_present_names_witness :
  insert_new scenario_document new_files =
    insert_new scenario_document (absent_from scenario_document new_files) /\
  insert_new (insert_new scenario_document new_files) new_files =
    insert_new scenario_document new_files.
Proof.
  apply (insertion_skips_present_names scenario_document new_files);
    vm_compute; reflexivity.
Defined.

(** C5, as stated, fails. DebugView.swift occurs in [spliced_document] in
    the build-phase shape, and still does after the removal step. *)
Lemma removal_leaves_a_shape :
  In (T "DebugView.swift") old_files /\
  Re.search (build_phase_pattern (T "DebugView.swift")) spliced_document
    = true /\
  Re.search (build_phase_pattern (T "DebugView.swift"))
    (remove_stale spliced_document old_files) = true.
Proof.
  repeat split; try (vm_compute; reflexivity).
  do 6 right; left; reflexivity.
Qed.

(** C5, amended. Removal completeness: for every stale name, each of the
    three substitutions deletes every occurrence of its shape that its scan
    meets: what it returns is the concatenation of the stretches of text it
    keeps, none of which contains an occurrence, so that an occurrence can be
    left only across a point where text was deleted. For every document and
    list of stale names, the document left by the removal step contains no
    occurrence of any of the three shapes of any listed name exactly when a
    further removal step would leave it unchanged. *)
Theorem removal_completeness (content : text) (names : list text) :
  (forall name c,
      deletes_what_it_meets (build_file_pattern name) c /\
      deletes_what_it_meets (file_ref_pattern name) c /\
      deletes_what_it_meets (build_phase_pattern name) c) /\
  (shape_free (remove_stale content names) names = true <->
   remove_stale (remove_stale content names) names =
   remove_stale content names).
Proof.
  split.
  - intros name c; repeat split;
      apply sub_deletes_what_it_meets, ReFacts.positive_head.
  - split; [apply remove_stale_absent | apply remove_stale_fixed].
Qed.

Lemma removal_completeness_witness :
  shape_free (remove_stale scenario_document [OldFile]) [OldFile] = true.
Proof.
  apply (proj2 (removal_completeness scenario_document [OldFile])).
  vm_compute. reflexivity.
Defined.






(** C8. Read-failure atomicity: when the project file does not exist or
    cannot be read, the script raises the error of the read and leaves the
    world as it found it: no file is written, nothing is printed, no effect
    is recorded. *)
Theorem read_failure_leaves_world (w : world) :
  files w project_path = None \/
  (exists f, files w project_path = Some f /\ readable f = false) ->
  exists e, main w = (Raise e, w).
Proof.
  intros [H|(f & H & Hr)].
  - exists FileNotFoundError. apply main_read_fails.
    unfold read_file; now rewrite H.
  - exists PermissionError. apply main_read_fails.
    unfold read_file; now rewrite H, Hr.
Qed.

Lemma read_failure_leaves_world_witness :
  exists e, main (boot (fun _ => None)) = (Raise e, boot (fun _ => None)).
Proof.
  apply (read_failure_leaves_world (boot (fun _ => None))).
  left; reflexivity.
Defined.




(** C10. The presence check is a plain substring test: for every insertion
    position, document and entry, if the entry's file name occurs anywhere
    in the document as it stands, between any two pieces of text, the entry
    is skipped and the document is returned as it is. *)
Theorem presence_check_is_substring (pos : Z)
    (content before after filename file_id : text) :
  content = before ++ filename ++ after ->
  insert_entry pos content (filename, file_id) = content.
Proof.
  intros E; apply insert_entry_present, str_in_true; eauto.
Qed.

Lemma presence_check_is_substring_witness :
  insert_entry 32 longer_name_document
    (T "ChatView.swift", T "E2DB26F32E53A25D00139AA3") =
  longer_name_document.
Proof.
  apply (presence_check_is_substring 32 longer_name_document
           ([TAB; TAB] ++ T "AA05 /* My")
           (T " */," ++ [NL] ++ line 2 anchor_string)).
  vm_compute. reflexivity.
Defined.

(** * Further properties of the script *)

(** ** Characters are only ever deleted by the removal and only ever added
       by the insertion *)

Section SubseqFacts.

Lemma Subseq_refl (s : text) : Subseq s s.
Proof. induction s; constructor; assumption. Qed.

Lemma Subseq_nil (t : text) : Subseq [] t.
Proof. induction t; constructor; assumption. Qed.

Lemma Subseq_trans (s t u : text) : Subseq s t -> Subseq t u -> Subseq s u.
Proof.
  intros Hst Htu; revert s Hst.
  induction Htu as [|c t u Htu IH|c t u Htu IH]; intros s Hst.
  - assumption.
  - inversion Hst; subst; constructor; now apply IH.
  - constructor; now apply IH.
Qed.

Lemma Subseq_app (s1 t1 s2 t2 : text) :
  Subseq s1 t1 -> Subseq s2 t2 -> Subseq (s1 ++ s2) (t1 ++ t2).
Proof.
  induction 1; intros H2; cbn [app]; [assumption | |];
    constructor; now apply IHSubseq.
Qed.

Lemma Subseq_length (s t : text) : Subseq s t -> length s <= length t.
Proof. induction 1; cbn [length]; lia. Qed.

Lemma sub_from_Subseq (p : Re.pattern) (s : text) :
  forall skip, Subseq (Re.sub_from p skip s) s.
Proof.
  induction s as [|c s IH]; intros skip; cbn [Re.sub_from];
    [constructor|].
  destruct skip as [|k]; [|constructor; apply IH].
  destruct (Re.match_here p (c :: s)) as [[|n]|]; constructor; apply IH.
Qed.

Lemma remove_file_Subseq (content name : text) :
  Subseq (remove_file content name) content.
Proof.
  unfold remove_file, Re.sub.
  eapply Subseq_trans; [apply sub_from_Subseq|].
  eapply Subseq_trans; apply sub_from_Subseq.
Qed.

Lemma insert_entry_Subseq (pos : Z) (content : text) (entry : text * text) :
  Subseq content (insert_entry pos content entry).
Proof.
  destruct entry as [fn id]; cbn [insert_entry].
  destruct (str_in fn content); cbn [negb]; [apply Subseq_refl|].
  rewrite <- (slice_to_from pos content) at 1.
  apply Subseq_app; [apply Subseq_refl|].
  rewrite <- (app_nil_l (slice_from pos content)) at 1.
  apply Subseq_app; [apply Subseq_nil | apply Subseq_refl].
Qed.

End SubseqFacts.

(** X1. The removal step only deletes: for every document and every list of
    stale names, what it returns is the document with some characters left
    out, the others unchanged and in their order; in particular it is never
    longer. *)
Theorem removal_only_deletes (content : text) (names : list text) :
  Subseq (remove_stale content names) content /\
  length (remove_stale content names) <= length content.
Proof.
  assert (H : Subseq (remove_stale content names) content).
  { unfold remove_stale; revert content.
    induction names as [|f names IH]; intros content; cbn [fold_left].
    - apply Subseq_refl.
    - eapply Subseq_trans; [apply IH | apply remove_file_Subseq]. }
  split; [exact H | now apply Subseq_length].
Qed.

(** X2. The insertion step only adds: for every document and every list of
    new entries, with or without the anchor, the document is what the step
    returns with some characters left out; no character of the input is
    lost, changed or reordered. *)
Theorem insertion_only_adds (content : text) (entries : list (text * text)) :
  Subseq content (insert_new content entries) /\
  length content <= length (insert_new content entries).
Proof.
  assert (H : Subseq content (insert_new content entries)).
  { unfold insert_new. generalize (find anchor content) as pos; intros pos.
    revert content; induction entries as [|e entries IH]; intros content;
      cbn [fold_left].
    - apply Subseq_refl.
    - eapply Subseq_trans; [apply insert_entry_Subseq | apply IH]. }
  split; [exact H | now apply Subseq_length].
Qed.

(** ** What a substitution deletes *)

Section Deleted.
Variable p : Re.pattern.

Lemma skipn_weave (s : text) :
  forall skip,
    skipn skip s = weave (Re.kept_from p skip s) (Re.dropped_from p skip s).
Proof.
  induction s as [|c s IH]; intros skip;
    cbn [Re.kept_from Re.dropped_from].
  - now rewrite skipn_nil.
  - destruct skip as [|k]; [|apply IH].
    assert (Keep : c :: s =
              weave match Re.kept_from p 0 s with
                    | g :: gs => (c :: g) :: gs
                    | [] => [[c]]
                    end (Re.dropped_from p 0 s)).
    { destruct (ReFacts.kept_from_head p s) as (g & gs & r & E & _).
      pose proof (IH 0) as H. rewrite E in *.
      cbn [weave app skipn] in *. now f_equal. }
    cbn [skipn].
    destruct (Re.match_here p (c :: s)) as [[|n]|];
      [exact Keep | | exact Keep].
    cbn [weave app firstn]. f_equal.
    rewrite <- (IH n). symmetry; apply firstn_skipn.
Qed.

Lemma kept_dropped_length (s : text) :
  forall skip,
    length (Re.kept_from p skip s) = S (length (Re.dropped_from p skip s)).
Proof.
  induction s as [|c s IH]; intros skip;
    cbn [Re.kept_from Re.dropped_from]; [reflexivity|].
  destruct skip as [|k]; [|apply IH].
  assert (Keep : length match Re.kept_from p 0 s with
                        | g :: gs => (c :: g) :: gs
                        | [] => [[c]]
                        end = S (length (Re.dropped_from p 0 s))).
  { rewrite <- (IH 0).
    destruct (ReFacts.kept_from_head p s) as (g & gs & r & E & _).
    now rewrite E. }
  destruct (Re.match_here p (c :: s)) as [[|n]|];
    [exact Keep | | exact Keep].
  cbn [length]. now rewrite IH.
Qed.

Lemma dropped_from_matches (s : text) :
  forall skip, Forall (Re.Matches p) (Re.dropped_from p skip s).
Proof.
  induction s as [|c s IH]; intros skip; cbn [Re.dropped_from];
    [constructor|].
  destruct skip as [|k]; [|apply IH].
  destruct (Re.match_here p (c :: s)) as [[|n]|] eqn:E; try apply IH.
  constructor; [|apply IH].
  destruct (ReFacts.match_here_sound p _ _ E) as (m & r & Es & L & M).
  rewrite Es, firstn_app, L, Nat.sub_diag, firstn_O, app_nil_r.
  rewrite <- L, firstn_all. exact M.
Qed.

End Deleted.

(** X3. A substitution deletes nothing but whole occurrences of its pattern:
    for every pattern and document, the document is the stretches the
    substitution keeps with the deleted matches between them, every deleted
    match is an occurrence of the pattern, and the result is the kept
    stretches put together. This holds for the three patterns of every
    stale name. *)
Theorem substitution_deletes_only_occurrences (p : Re.pattern) (s : text) :
  deletes_only_occurrences p s.
Proof.
  repeat split.
  - apply (skipn_weave p s 0).
  - apply kept_dropped_length.
  - apply dropped_from_matches.
  - apply ReFacts.sub_from_kept.
Qed.

(** X4. A removal without effect: for every document and list of stale
    names, the removal step returns the document unchanged exactly when no
    listed name has an occurrence of any of its three shapes anywhere in the
    document; a name that is not there raises no error and changes
    nothing. *)
Theorem removal_changes_iff_occurrence (content : text) (names : list text) :
  remove_stale content names = content <->
  forall name p, In name names -> In p (patterns_of name) ->
                 ~ occurs p content.
Proof.
  rewrite <- shape_free_spec; split;
    [apply remove_stale_fixed | apply remove_stale_absent].
Qed.

(** ** Insertion before the anchor *)

Section BeforeTheAnchor.

Lemma anchor_found (content : text) :
  str_in anchor content = true ->
  exists a b, content = a ++ anchor ++ b /\
              find anchor content = Z.of_nat (length a).
Proof.
  intros Ha.
  assert (Hn : find anchor content <> (-1)%Z).
  { intros E; apply str_in_false in E; congruence. }
  destruct (find_from_found anchor content 0 ltac:(lia) Hn)
    as (a & b & E & Hp).
  exists a, b; split; [assumption|]. exact Hp.
Qed.

(** With the anchor there and names that no line can split, the lines go
    between the text before the anchor and the anchor, and afterwards every
    name of the list is in the document. *)
Lemma insert_new_shape (content : text) (entries : list (text * text)) :
  str_in anchor content = true ->
  unsplittable entries = true ->
  exists a b x,
    content = a ++ anchor ++ b /\
    insert_new content entries = a ++ x ++ anchor ++ b /\
    forall filename file_id, In (filename, file_id) entries ->
      str_in filename (a ++ x ++ anchor ++ b) = true.
Proof.
  intros Ha U. destruct (anchor_found content Ha) as (a & b & E & Hp).
  destruct (insert_loop_shape a entries U "E"%char (tl anchor ++ b)
              (or_intror eq_refl)) as (x & Hx & Hnames).
  exists a, b, x; split; [assumption|].
  unfold insert_new; rewrite Hp. clear Hp Ha.
  subst content. split; [exact Hx | exact Hnames].
Qed.

End BeforeTheAnchor.



(** X6. Running the whole transformation again: for every document and all
    lists, if the document left by the removal contains the anchor, no new
    name contains a tab or the letter E, and the patched document contains
    none of the three shapes of any stale name, then patching the patched
    document returns it unchanged. *)
Theorem patch_twice (old_names : list text) (entries : list (text * text))
    (content : text) :
  str_in anchor (remove_stale content old_names) = true ->
  unsplittable entries = true ->
  shape_free (patch old_names entries content) old_names = true ->
  patch old_names entries (patch old_names entries content) =
  patch old_names entries content.
Proof.
  intros Ha U F. unfold patch at 1.
  rewrite (remove_stale_absent _ _ F). unfold patch.
  destruct (insert_new_shape _ entries Ha U) as (a & b & x & E & R & Hn).
  apply insert_new_all_present. rewrite R. exact Hn.
Qed.

Lemma patch_twice_witness :
  patch [OldFile] new_files (patch [OldFile] new_files scenario_document) =
  patch [OldFile] new_files scenario_document.
Proof.
  apply (patch_twice [OldFile] new_files scenario_document);
    vm_compute; reflexivity.
Defined.

(** ** The order of the inserted lines *)

Section LineOrder.

Lemma str_in_app_l_false (needle a b : text) :
  str_in needle (a ++ b) = false -> str_in needle a = false.
Proof.
  intros H; destruct (str_in needle a) eqn:E; [|reflexivity].
  now rewrite (str_in_app_l needle a b E) in H.
Qed.

Lemma str_in_app_r_false (needle a b : text) :
  str_in needle (a ++ b) = false -> str_in needle b = false.
Proof.
  intros H; destruct (str_in needle b) eqn:E; [|reflexivity].
  now rewrite (str_in_app_r needle a b E) in H.
Qed.

Lemma avoids_In (c : ascii) (entries : list (text * text))
    (filename file_id : text) :
  avoids c entries = true -> In (filename, file_id) entries ->
  ~ In c filename.
Proof.
  unfold avoids; rewrite forallb_forall; intros H Hin Hc.
  specialize (H _ Hin); cbn [fst] in H. apply negb_true_iff in H.
  assert (E : existsb (Ascii.eqb c) filename = true).
  { apply existsb_exists; exists c; split; [assumption|].
    apply Ascii.eqb_refl. }
  congruence.
Qed.

Section OneName.
Variable fn : text.
Variable c : ascii.
Variable t : text.
Hypothesis no_tab : ~ In TAB fn.
Hypothesis no_c : ~ In c fn.

(** Lines that begin with a tab, followed by [c :: t], begin with a
    character that [fn] lacks. *)
Lemma lines_head (ls : list text) :
  (forall l, In l ls -> exists t', l = TAB :: t') ->
  exists c' r, concat ls ++ c :: t = c' :: r /\ ~ In c' fn.
Proof.
  destruct ls as [|l ls]; intros H.
  - exists c, t; auto.
  - destruct (H l (or_introl eq_refl)) as [t' ->].
    exists TAB, (t' ++ concat ls ++ c :: t); split; [|assumption].
    cbn [concat app]. now rewrite <- app_assoc.
Qed.

(** A name found in none of the pieces is not found in the whole, when no
    occurrence of it can span two pieces. *)
Lemma absent_from_lines (ls : list text) :
  (forall l, In l ls -> exists t', l = TAB :: t') ->
  (forall l, In l ls -> str_in fn l = false) ->
  str_in fn (c :: t) = false ->
  str_in fn (concat ls ++ c :: t) = false.
Proof.
  induction ls as [|l ls IH]; intros Ht Hl Hc; [assumption|].
  assert (Ht' : forall l', In l' ls -> exists t', l' = TAB :: t')
    by (intros; apply Ht; now right).
  assert (Hl' : forall l', In l' ls -> str_in fn l' = false)
    by (intros; apply Hl; now right).
  specialize (IH Ht' Hl' Hc).
  destruct (lines_head ls Ht') as (c' & r & E & Hc').
  cbn [concat]; rewrite <- app_assoc, E in *.
  destruct (str_in fn (l ++ c' :: r)) eqn:F; [|reflexivity].
  destruct (str_in_app_cut fn l c' r Hc' F) as [H|H].
  - rewrite (Hl l (or_introl eq_refl)) in H; discriminate.
  - congruence.
Qed.

Lemma absent_between (a : text) (ls : list text) :
  (forall l, In l ls -> exists t', l = TAB :: t') ->
  (forall l, In l ls -> str_in fn l = false) ->
  str_in fn (a ++ c :: t) = false ->
  str_in fn (a ++ concat ls ++ c :: t) = false.
Proof.
  intros Ht Hl Hc.
  pose proof (absent_from_lines ls Ht Hl (str_in_app_r_false _ _ _ Hc)) as H.
  destruct (lines_head ls Ht) as (c' & r & E & Hc'). rewrite E in *.
  destruct (str_in fn (a ++ c' :: r)) eqn:F; [|reflexivity].
  destruct (str_in_app_cut fn a c' r Hc' F) as [G|G]; [|congruence].
  rewrite (str_in_app_l_false _ _ _ Hc) in G; discriminate.
Qed.

End OneName.

Lemma fresh_cons (content : text) (earlier : list text)
    (e : text * text) (rest : list (text * text)) :
  fresh content earlier (e :: rest) = true ->
  str_in (fst e) content = false /\
  (forall l, In l earlier -> str_in (fst e) l = false) /\
  fresh content (entry_line e :: earlier) rest = true.
Proof.
  cbn [fresh]; rewrite !andb_true_iff, negb_true_iff, forallb_forall.
  intros [[H1 H2] H3]; repeat split; try assumption.
  intros l Hl; apply negb_true_iff; now apply H2.
Qed.

Lemma entry_line_head (e : text * text) : exists t', entry_line e = TAB :: t'.
Proof. now exists (tl (entry_line e)). Qed.

(** With the insertion point fixed at the end of [a], each new line goes in
    front of the lines inserted before it. *)
Lemma insert_loop_fresh_front (a : text) (c : ascii) (t : text)
    (entries : list (text * text)) :
  forall earlier,
    (forall fn id, In (fn, id) entries -> ~ In TAB fn /\ ~ In c fn) ->
    (forall l, In l earlier -> exists t', l = TAB :: t') ->
    fresh (a ++ c :: t) earlier entries = true ->
    fold_left (insert_entry (Z.of_nat (length a))) entries
      (a ++ concat earlier ++ c :: t) =
    a ++ concat (rev (map entry_line entries)) ++ concat earlier ++ c :: t.
Proof.
  induction entries as [|[fn id] entries IH]; intros earlier Hn Ht F;
    [reflexivity|].
  apply fresh_cons in F as (Fc & Fl & Fr); cbn [fst] in Fc, Fl.
  destruct (Hn fn id (or_introl eq_refl)) as [Htab Hc].
  cbn [fold_left map rev].
  rewrite insert_entry_at_cut
    by (apply absent_between; assumption).
  change (build_entry fn id) with (entry_line (fn, id)).
  replace (a ++ entry_line (fn, id) ++ concat earlier ++ c :: t)
    with (a ++ concat (entry_line (fn, id) :: earlier) ++ c :: t)
    by (cbn [concat]; now rewrite <- app_assoc).
  rewrite IH.
  - rewrite concat_app; cbn [concat]. now rewrite app_nil_r, <- !app_assoc.
  - intros fn' id' Hin; apply (Hn fn' id'); now right.
  - intros l [<-|Hl]; [apply entry_line_head | now apply Ht].
  - exact Fr.
Qed.

(** With the insertion point before the last character [c], each new line
    goes after the lines inserted before it. *)
Lemma insert_loop_fresh_back (a : text) (c : ascii)
    (entries : list (text * text)) :
  forall earlier,
    (forall fn id, In (fn, id) entries -> ~ In TAB fn /\ ~ In c fn) ->
    (forall l, In l earlier -> exists t', l = TAB :: t') ->
    fresh (a ++ [c]) earlier entries = true ->
    fold_left (insert_entry (-1)) entries
      (a ++ concat (rev earlier) ++ [c]) =
    a ++ concat (rev earlier) ++ concat (map entry_line entries) ++ [c].
Proof.
  induction entries as [|[fn id] entries IH]; intros earlier Hn Ht F;
    [reflexivity|].
  apply fresh_cons in F as (Fc & Fl & Fr); cbn [fst] in Fc, Fl.
  destruct (Hn fn id (or_introl eq_refl)) as [Htab Hc].
  cbn [fold_left map concat].
  assert (A : str_in fn (a ++ concat (rev earlier) ++ [c]) = false).
  { apply absent_between; try assumption.
    - intros l Hl; apply Ht; now apply in_rev.
    - intros l Hl; apply Fl; now apply in_rev. }
  rewrite (insert_entry_not_found _ fn id A).
  unfold insert_before_last.
  replace (a ++ concat (rev earlier) ++ [c])
    with ((a ++ concat (rev earlier)) ++ [c]) by now rewrite <- app_assoc.
  rewrite length_app; cbn [length].
  replace (length (a ++ concat (rev earlier)) + 1 - 1)
    with (length (a ++ concat (rev earlier))) by lia.
  rewrite firstn_app, Nat.sub_diag, firstn_all, firstn_O, app_nil_r.
  rewrite skipn_app, Nat.sub_diag, skipn_all; cbn [skipn app].
  change (build_entry fn id) with (entry_line (fn, id)).
  replace ((a ++ concat (rev earlier)) ++ entry_line (fn, id) ++ [c])
    with (a ++ concat (rev (entry_line (fn, id) :: earlier)) ++ [c])
    by (cbn [rev]; rewrite concat_app; cbn [concat];
        now rewrite app_nil_r, <- !app_assoc).
  rewrite IH.
  - cbn [rev]; rewrite concat_app; cbn [concat].
    now rewrite app_nil_r, <- !app_assoc.
  - intros fn' id' Hin; apply (Hn fn' id'); now right.
  - intros l [<-|Hl]; [apply entry_line_head | now apply Ht].
  - exact Fr.
Qed.

End LineOrder.

(** X7. Order of the inserted lines when the anchor is there: for every
    document that contains the anchor and every list of new entries whose
    names contain neither a tab nor the letter E and occur neither in the
    document nor in the line of an earlier entry, every entry is inserted,
    and the lines stand before the first occurrence of the anchor in the
    reverse of the list order: only the line of the first entry is directly
    before the anchor. *)
Theorem lines_before_anchor_in_reverse (content : text)
    (entries : list (text * text)) :
  str_in anchor content = true ->
  unsplittable entries = true ->
  fresh content [] entries = true ->
  exists a b,
    content = a ++ anchor ++ b /\
    find anchor content = Z.of_nat (length a) /\
    insert_new content entries =
      a ++ concat (rev (map entry_line entries)) ++ anchor ++ b.
Proof.
  intros Ha U F. destruct (anchor_found content Ha) as (a & b & E & Hp).
  exists a, b; repeat split; [assumption | assumption |].
  unfold insert_new; rewrite Hp. clear Hp Ha. subst content.
  change (anchor ++ b) with ("E"%char :: tl anchor ++ b) in *.
  apply (insert_loop_fresh_front a "E"%char (tl anchor ++ b) entries []).
  - intros fn id Hin; split; apply (unsplittable_In entries fn id); auto.
  - intros l [].
  - exact F.
Qed.

Lemma lines_before_anchor_in_reverse_witness :
  exists a b,
    scenario_document = a ++ anchor ++ b /\
    find anchor scenario_document = Z.of_nat (length a) /\
    insert_new scenario_document new_files =
      a ++ concat (rev (map entry_line new_files)) ++ anchor ++ b.
Proof.
  apply (lines_before_anchor_in_reverse scenario_document new_files);
    vm_compute; reflexivity.
Defined.

(** X8. Order of the inserted lines when the anchor is missing: for every
    non-empty document without the anchor and every list of new entries
    whose names contain neither a tab nor the document's last character and
    occur neither in the document nor in the line of an earlier entry, every
    entry is inserted, and the lines stand in list order between the
    document's last character and what precedes it. *)
Theorem lines_before_last_character_in_order (a : text) (c : ascii)
    (entries : list (text * text)) :
  str_in anchor (a ++ [c]) = false ->
  avoids TAB entries = true ->
  avoids c entries = true ->
  fresh (a ++ [c]) [] entries = true ->
  insert_new (a ++ [c]) entries =
    a ++ concat (map entry_line entries) ++ [c].
Proof.
  intros Ha Ht Hc F. apply str_in_false in Ha.
  unfold insert_new; rewrite Ha.
  apply (insert_loop_fresh_back a c entries []).
  - intros fn id Hin; split;
      [apply (avoids_In TAB entries fn id) | apply (avoids_In c entries fn id)];
      assumption.
  - intros l [].
  - exact F.
Qed.

Lemma lines_before_last_character_in_order_witness :
  insert_new anchorless_document new_files =
    (T "{" ++ [NL] ++ T "}") ++ concat (map entry_line new_files) ++ [NL].
Proof.
  apply (lines_before_last_character_in_order (T "{" ++ [NL] ++ T "}") NL
           new_files); vm_compute; reflexivity.
Defined.

(** ** Inserted lines and the removal patterns *)

Section InsertedShape.

Lemma build_entry_pieces (filename file_id : text) :
  build_entry filename file_id =
  ([TAB; TAB] ++ file_id)
  ++ ([] ++ T "_BUILD" ++ T " "
      ++ (T "/* " ++ filename ++ T " in Sources */ = {")
      ++ (T "isa = PBXBuildFile; fileRef = " ++ file_id ++ T " /* "
          ++ filename ++ T " */; ")
      ++ T "};" ++ [])
  ++ [NL].
Proof.
  unfold build_entry.
  change (T "_BUILD /* ") with (T "_BUILD" ++ T " " ++ T "/* ").
  change (T " in Sources */ = {isa = PBXBuildFile; fileRef = ")
    with (T " in Sources */ = {" ++ T "isa = PBXBuildFile; fileRef = ").
  change (T " */; };") with (T " */; " ++ T "};").
  rewrite app_nil_r, <- !app_assoc. reflexivity.
Qed.

Lemma build_entry_occurrence (filename file_id : text) :
  brace_free filename = true -> brace_free file_id = true ->
  occurs (build_file_pattern filename) (build_entry filename file_id).
Proof.
  intros Hf Hi. eexists _, _, _; split; [apply build_entry_pieces|].
  unfold build_file_pattern.
  apply Re.MatchesMany0; [reflexivity|].
  apply Re.MatchesMany1; [discriminate | reflexivity |].
  apply Re.MatchesMany0; [reflexivity|].
  apply Re.MatchesLit.
  apply Re.MatchesMany1.
  - discriminate.
  - unfold brace_free in *. rewrite !forallb_app, Hf, Hi. reflexivity.
  - apply Re.MatchesLit. constructor.
Qed.

End InsertedShape.

(** X9. The lines the script inserts have the shape its removal deletes:
    for every document, insertion position and entry whose file name is
    absent from the document, when neither the name nor the identifier
    contains a closing brace, the document after the insertion contains an
    occurrence of the build-file shape of that name, so that a removal step
    that lists the name as stale does not leave the document unchanged. *)
Theorem inserted_line_has_build_file_shape (pos : Z)
    (content filename file_id : text) :
  str_in filename content = false ->
  brace_free filename = true ->
  brace_free file_id = true ->
  occurs (build_file_pattern filename)
    (insert_entry pos content (filename, file_id)) /\
  remove_stale (insert_entry pos content (filename, file_id)) [filename] <>
    insert_entry pos content (filename, file_id).
Proof.
  intros Ha Hf Hi.
  assert (O : occurs (build_file_pattern filename)
                (insert_entry pos content (filename, file_id))).
  { rewrite insert_entry_absent by assumption.
    destruct (build_entry_occurrence filename file_id Hf Hi)
      as (a & m & b & E & M).
    exists (slice_to pos content ++ a), m, (b ++ slice_from pos content).
    split; [|assumption]. rewrite E, <- !app_assoc. reflexivity. }
  split; [exact O|].
  intros E. apply remove_stale_fixed in E.
  apply (proj1 (shape_free_spec _ _) E filename (build_file_pattern filename));
    [now left | now left | exact O].
Qed.

Lemma inserted_line_has_build_file_shape_witness :
  occurs (build_file_pattern NewFile)
    (insert_entry 71 scenario_document (NewFile, T "ID1")) /\
  remove_stale (insert_entry 71 scenario_document (NewFile, T "ID1"))
    [NewFile] <>
    insert_entry 71 scenario_document (NewFile, T "ID1").
Proof.
  apply (inserted_line_has_build_file_shape 71 scenario_document NewFile
           (T "ID1")); vm_compute; reflexivity.
Defined.

(** ** The script and the file system *)



(** X11. A write that fails: when the project file can be read but not
    opened for writing, the script has already printed its success message;
    it then fails with the error of the open, and the file system is left
    as it was, no write having been performed. *)
Theorem write_failure_after_message (w : world) (f : file) :
  files w project_path = Some f -> readable f = true -> writable f = false ->
  fst (main w) = Raise PermissionError /\
  files (snd (main w)) = files w /\
  stdout (snd (main w)) = stdout w ++ [success_message ++ [NL]] /\
  trace (snd (main w)) =
    trace w ++ [Read project_path; Print success_message].
Proof.
  intros Hf Hr Hw. rewrite (main_write_fails w f Hf Hr Hw).
  repeat split.
Qed.

Lemma write_failure_after_message_witness :
  fst (main (boot (disk project_path
                     {| readable := true; writable := false;
                        data := scenario_document |})))
    = Raise PermissionError.
Proof.
  exact (proj1 (write_failure_after_message
                  (boot (disk project_path
                     {| readable := true; writable := false;
                        data := scenario_document |}))
                  {| readable := true; writable := false;
                     data := scenario_document |}
                  eq_refl eq_refl eq_refl)).
Defined.

(** ** Where the anchor is found *)

Lemma find_from_first (needle a b : text) (i : Z) :
  (find_from needle (a ++ needle ++ b) i <= i + Z.of_nat (length a))%Z.
Proof.
  revert i; induction a as [|c a IH]; intros i.
  - cbn [app length]. destruct (needle ++ b) eqn:E; cbn [find_from];
      unfold starts_with; rewrite <- E, strip_prefix_app; cbn; lia.
  - cbn [app find_from].
    destruct (starts_with needle (c :: a ++ needle ++ b));
      [cbn [length]; lia|].
    specialize (IH (i + 1)%Z). cbn [length]. lia.
Qed.

(** X12. The insertion position is the first occurrence of the anchor: for
    every document that contains the anchor, [insert_pos] is the length of
    the text before an occurrence of the anchor, and no occurrence of the
    anchor starts earlier; when the anchor occurs several times, a new line
    goes before the first. *)
Theorem insert_pos_is_first_anchor (content filename file_id : text) :
  str_in anchor content = true ->
  str_in filename content = false ->
  exists a b,
    content = a ++ anchor ++ b /\
    insert_new content [(filename, file_id)] =
      a ++ build_entry filename file_id ++ anchor ++ b /\
    forall a' b', content = a' ++ anchor ++ b' -> length a <= length a'.
Proof.
  intros Ha Hf. destruct (anchor_found content Ha) as (a & b & E & Hp).
  exists a, b; repeat split; [assumption | |].
  - unfold insert_new; cbn [fold_left]. rewrite Hp. clear Hp Ha.
    subst content. now apply insert_entry_at_cut.
  - intros a' b' E'.
    pose proof (find_from_first anchor a' b' 0) as H.
    rewrite <- E' in H. fold (find anchor content) in H. lia.
Qed.

Lemma insert_pos_is_first_anchor_witness :
  exists a b,
    scenario_document ++ scenario_document = a ++ anchor ++ b /\
    insert_new (scenario_document ++ scenario_document)
      [(NewFile, T "ID1")] =
      a ++ build_entry NewFile (T "ID1") ++ anchor ++ b /\
    forall a' b', scenario_document ++ scenario_document = a' ++ anchor ++ b' ->
                  length a <= length a'.
Proof.
  apply (insert_pos_is_first_anchor (scenario_document ++ scenario_document)
           NewFile (T "ID1")); vm_compute; reflexivity.
Defined.

(** ** The patterns leave the matcher no choice *)

Section Unambiguous.
Import Re.

Lemma word_not_space (c : ascii) : is_word c = true -> is_space c = false.
Proof.
  destruct c as [[] [] [] [] [] [] [] []]; vm_compute;
    intros H; try reflexivity; discriminate H.
Qed.

Lemma space_not_word (c : ascii) : is_space c = true -> is_word c = false.
Proof.
  intros H; destruct (is_word c) eqn:E; [|reflexivity].
  apply word_not_space in E; congruence.
Qed.

(** Two runs of a class that both end where the class stops, in the same
    text, are the same run. *)
Lemma run_unique (k : cls) (w1 : text) :
  forall w2 x1 x2,
    forallb (mem k) w1 = true -> forallb (mem k) w2 = true ->
    stops k x1 -> stops k x2 ->
    w1 ++ x1 = w2 ++ x2 -> w1 = w2 /\ x1 = x2.
Proof.
  induction w1 as [|c1 w1 IH]; intros [|c2 w2] x1 x2 H1 H2 S1 S2 E;
    cbn [app forallb] in *.
  - auto.
  - subst x1. apply andb_true_iff in H2 as [H2 _]. cbn [stops] in S1.
    congruence.
  - subst x2. apply andb_true_iff in H1 as [H1 _]. cbn [stops] in S2.
    congruence.
  - injection E as -> E.
    apply andb_true_iff in H1 as [_ H1]; apply andb_true_iff in H2 as [_ H2].
    destruct (IH w2 x1 x2 H1 H2 S1 S2 E) as [-> ->]; auto.
Qed.

Lemma unique_end : unique [].
Proof. intros m1 r1 m2 r2 M1 M2 _; inversion M1; inversion M2; congruence. Qed.

Lemma unique_body : unique [Many1 NotBrace; Lit (T "};")].
Proof.
  intros m1 r1 m2 r2 M1 M2 E.
  inversion M1 as [| |k1 q1 w1 x1 N1 W1 X1|]; subst.
  inversion M2 as [| |k2 q2 w2 x2 N2 W2 X2|]; subst.
  inversion X1 as [| | |l1 q1 y1 Y1]; subst; inversion Y1; subst.
  inversion X2 as [| | |l2 q2 y2 Y2]; subst; inversion Y2; subst.
  rewrite <- !app_assoc in E.
  assert (St : forall r, stops NotBrace (T "};" ++ [] ++ r))
    by (intros; reflexivity).
  destruct (run_unique NotBrace w1 w2 _ _ W1 W2 (St r1) (St r2) E)
    as [-> _].
  reflexivity.
Qed.

(** The head [\s*\w+\s*] followed by a literal that begins with a slash. *)
Lemma unique_head (l : text) (q : pattern) :
  unique q ->
  unique (Many0 Space :: Many1 Word :: Many0 Space
          :: Lit ("/"%char :: l) :: q).
Proof.
  intros Uq m1 r1 m2 r2 M1 M2 E.
  inversion M1 as [|k1 q1 a1 x1 A1 X1| |]; subst.
  inversion M2 as [|k2 q2 a2 x2 A2 X2| |]; subst.
  inversion X1 as [| |k1 q1 w1 y1 N1 W1 Y1|]; subst.
  inversion X2 as [| |k2 q2 w2 y2 N2 W2 Y2|]; subst.
  inversion Y1 as [|k1 q1 b1 z1 B1 Z1| |]; subst.
  inversion Y2 as [|k2 q2 b2 z2 B2 Z2| |]; subst.
  inversion Z1 as [| | |l1 q1 u1 U1]; subst.
  inversion Z2 as [| | |l2 q2 u2 U2]; subst.
  rewrite <- !app_assoc in E.
  assert (Sw : forall w x, w <> [] -> forallb (mem Word) w = true ->
                           stops Space (w ++ x)).
  { intros [|c w] x Hw Hf; [contradiction|]. cbn [app stops mem].
    cbn [forallb] in Hf; apply andb_true_iff in Hf as [Hc _].
    now apply word_not_space. }
  assert (Sb : forall b x, forallb (mem Space) b = true ->
                           stops Word (b ++ "/"%char :: x)).
  { intros [|c b] x Hf; [reflexivity|]. cbn [app stops mem].
    cbn [forallb] in Hf; apply andb_true_iff in Hf as [Hc _].
    now apply space_not_word. }
  destruct (run_unique Space a1 a2 _ _ A1 A2 (Sw _ _ N1 W1) (Sw _ _ N2 W2) E)
    as [-> E1].
  destruct (run_unique Word w1 w2 _ _ W1 W2 (Sb _ _ B1) (Sb _ _ B2) E1)
    as [-> E2].
  assert (Sl : forall x, stops Space ("/"%char :: x))
    by (intros; reflexivity).
  destruct (run_unique Space b1 b2 _ _ B1 B2 (Sl _) (Sl _) E2)
    as [-> E3].
  cbn [app] in E3. injection E3 as E3. apply app_inv_head in E3.
  now rewrite (Uq u1 r1 u2 r2 U1 U2 E3).
Qed.

Lemma unique_patterns_of (name : text) (p : pattern) :
  In p (patterns_of name) -> unique p.
Proof.
  intros [<-|[<-|[<-|[]]]].
  - apply (unique_head (T "* " ++ name ++ T " in Sources */ = {")),
      unique_body.
  - apply (unique_head (T "* " ++ name ++ T " */ = {")), unique_body.
  - apply (unique_head (T "* " ++ name ++ T " in Sources */,")), unique_end.
Qed.

End Unambiguous.

(** X13. The three patterns of a stale name are unambiguous, and the
    matcher finds exactly what is there: for every name, each of its three
    patterns and every text that begins with an occurrence of the pattern,
    the match found at the start of the text is that occurrence, and no
    other occurrence of the pattern starts there. What [re.sub] deletes at a
    position does not depend on the order in which repetitions are tried. *)
Theorem matcher_finds_the_occurrence (name : text) (p : Re.pattern)
    (m r : text) :
  In p (patterns_of name) ->
  Re.Matches p m ->
  Re.match_here p (m ++ r) = Some (length m) /\
  forall m' r', Re.Matches p m' -> m' ++ r' = m ++ r -> m' = m.
Proof.
  intros Hp M. pose proof (unique_patterns_of name p Hp) as U.
  split.
  - destruct (Re.match_here p (m ++ r)) as [n|] eqn:E.
    + destruct (ReFacts.match_here_sound p _ _ E) as (m' & r' & E' & L & M').
      symmetry in E'. now rewrite <- L, (U m' r' m r M' M E').
    + now apply (ReFacts.match_here_complete p m M r) in E.
  - intros m' r' M' E. exact (U m' r' m r M' M E).
Qed.

Lemma matcher_finds_the_occurrence_witness :
  Re.match_here (build_phase_pattern OldFile)
    (([] ++ T "AA01" ++ T " "
      ++ (T "/* " ++ OldFile ++ T " in Sources */,") ++ [])
     ++ [NL])
  = Some 36.
Proof.
  refine (proj1 (matcher_finds_the_occurrence OldFile
                   (build_phase_pattern OldFile) _ [NL] _ _)).
  - right; right; left; reflexivity.
  - apply Re.MatchesMany0; [reflexivity|].
    apply Re.MatchesMany1; [discriminate | reflexivity |].
    apply Re.MatchesMany0; [reflexivity|].
    apply Re.MatchesLit. apply Re.MatchesEnd.
Defined.
